(** * The todo-list component: add, toggle, delete and the filtered, sorted view

    A shallow embedding of the logic of [src/components/TodoList.tsx]: the
    component state, the three event handlers that write the task collection
    ([addTodo], [toggleTodo], [deleteTodo]) and the memoised derived list
    [sortedAndFilteredTodos].

    - A JavaScript string is the list of its UTF-16 code units.
    - [Date.now()] is an input of [addTodo]: the reading of the wall clock,
      an integer number of milliseconds.
    - [toast] is an output of the handlers.
    - Arrays live in a store, because [Array.prototype.sort] sorts in place
      while [filter], [map] and the spread build new arrays. *)

From Stdlib Require Import ZArith NArith Lia String Ascii DecimalString DecimalZ.
From Stdlib Require Import Sorting.Sorted Sorting.Permutation.
From stdpp Require Import base decidable option list gmap.

Local Open Scope N_scope.

(** ** JavaScript strings *)

Abbreviation jsstring := (list N).

(** A literal of the source, all of whose characters are ASCII. *)
Definition js (s : string) : jsstring :=
  List.map N_of_ascii (list_ascii_of_string s).

(** The code units that [String.prototype.trim] strips: ECMAScript's
    WhiteSpace (TAB, VT, FF, SP, NBSP, ZWNBSP and the Unicode category Zs) and
    LineTerminator (LF, CR, LS, PS). All of them are in the basic plane. *)
Definition isWhiteSpace (c : N) : bool :=
  (c =? 9) || (c =? 10) || (c =? 11) || (c =? 12) || (c =? 13) || (c =? 32)
  || (c =? 160) || (c =? 5760) || ((8192 <=? c) && (c <=? 8202))
  || (c =? 8232) || (c =? 8233) || (c =? 8239) || (c =? 8287)
  || (c =? 12288) || (c =? 65279).

Fixpoint trimStart (s : jsstring) : jsstring :=
  match s with
  | c :: s' => if isWhiteSpace c then trimStart s' else s
  | [] => []
  end.

Definition trimEnd (s : jsstring) : jsstring := rev (trimStart (rev s)).

Definition trim (s : jsstring) : jsstring := trimEnd (trimStart s).

(** [s.split(sep)] for a separator of one code unit (the source only splits
    on [","]). The result is never empty: [("").split(",")] is [[""]]. *)
Fixpoint split (sep : N) (s : jsstring) : list jsstring :=
  match s with
  | [] => [[]]
  | c :: s' =>
      if c =? sep then [] :: split sep s'
      else match split sep s' with
           | piece :: pieces => (c :: piece) :: pieces
           | [] => [[c]]
           end
  end.

Fixpoint startsWith (p s : jsstring) : bool :=
  match p, s with
  | [], _ => true
  | a :: p', b :: s' => (a =? b) && startsWith p' s'
  | _ :: _, [] => false
  end.

(** [s.includes(t)] *)
Fixpoint includes (s t : jsstring) : bool :=
  startsWith t s ||
  match s with
  | [] => false
  | _ :: s' => includes s' t
  end.

(** [t] occurs in [s]. *)
Definition isSubstring (t s : jsstring) : Prop := ∃ pre post, s = pre ++ t ++ post.

(** [pieces.join(sep)], the inverse of [split]. *)
Fixpoint join (sep : N) (pieces : list jsstring) : jsstring :=
  match pieces with
  | [] => []
  | [piece] => piece
  | piece :: rest => piece ++ sep :: join sep rest
  end.

(** [n.toString()] for an integer [n] below 10^21 in absolute value, which
    every time value is: the decimal digits, after a minus sign if negative. *)
Definition Number_toString (n : Z) : jsstring :=
  js (NilZero.string_of_int (Z.to_int n)).

(** ** The data model *)

Inductive Priority := low | medium | high.

Global Instance Priority_eq_dec : EqDecision Priority.
Proof. solve_decision. Defined.

(** [interface Todo]. A [Date] is its time value; an absent optional field is
    [None]. No handler assigns to a field of an existing task (toggling builds
    a new object with the spread), so a task is a value. *)
Module Todo.
Record t := mk {
  id : jsstring;
  text : jsstring;
  completed : bool;
  priority : Priority;
  category : jsstring;
  dueDate : option Z;
  notes : option jsstring;
  tags : option (list jsstring)
}.
End Todo.

Global Instance Todo_eq_dec : EqDecision Todo.t.
Proof. solve_decision. Defined.

(** The [useState] cells of the component. *)
Module St.
Record t := mk {
  todos : list Todo.t;
  newTodo : jsstring;
  priority : Priority;
  category : jsstring;
  filter : jsstring;
  searchQuery : jsstring;
  dueDate : option Z;
  notes : jsstring;
  tags : jsstring;
  sortBy : jsstring
}.
End St.

Definition initial : St.t :=
  {| St.todos := []; St.newTodo := js ""; St.priority := medium;
     St.category := js "personal"; St.filter := js "all";
     St.searchQuery := js ""; St.dueDate := None; St.notes := js "";
     St.tags := js ""; St.sortBy := js "date" |}.

Record Toast := {
  title : jsstring;
  description : jsstring;
  variant : option jsstring
}.

(** ** The handlers *)

(** [tags.split(',').map(tag => tag.trim()).filter(tag => tag !== '')] *)
Definition parseTags (raw : jsstring) : list jsstring :=
  filter (λ tag, tag ≠ []) (trim <$> split 44 raw).

(** The submit handler of the form. The arguments of a create are the cells
    the form fills: [newTodo] is the text, [tags] the raw tags; [now] is what
    [Date.now()] returns. *)
Definition addTodo (now : Z) (st : St.t) : St.t * option Toast :=
  if decide (trim (St.newTodo st) = []) then
    (st, Some {| title := js "Error";
                 description := js "Todo text cannot be empty";
                 variant := Some (js "destructive") |})
  else
    let todo :=
      {| Todo.id := Number_toString now;
         Todo.text := St.newTodo st;
         Todo.completed := false;
         Todo.priority := St.priority st;
         Todo.category := St.category st;
         Todo.dueDate := St.dueDate st;
         Todo.notes := Some (St.notes st);
         Todo.tags := Some (parseTags (St.tags st)) |} in
    ({| St.todos := St.todos st ++ [todo];
        St.newTodo := js "";
        St.priority := St.priority st;
        St.category := St.category st;
        St.filter := St.filter st;
        St.searchQuery := St.searchQuery st;
        St.dueDate := None;
        St.notes := js "";
        St.tags := js "";
        St.sortBy := St.sortBy st |},
     Some {| title := js "Success";
             description := js "Todo added successfully";
             variant := None |}).

(** [setTodos(l)] *)
Definition set_todos (l : list Todo.t) (st : St.t) : St.t :=
  {| St.todos := l;
     St.newTodo := St.newTodo st;
     St.priority := St.priority st;
     St.category := St.category st;
     St.filter := St.filter st;
     St.searchQuery := St.searchQuery st;
     St.dueDate := St.dueDate st;
     St.notes := St.notes st;
     St.tags := St.tags st;
     St.sortBy := St.sortBy st |}.

(** [{ ...todo, completed: !todo.completed }] *)
Definition flip (todo : Todo.t) : Todo.t :=
  {| Todo.id := Todo.id todo;
     Todo.text := Todo.text todo;
     Todo.completed := negb (Todo.completed todo);
     Todo.priority := Todo.priority todo;
     Todo.category := Todo.category todo;
     Todo.dueDate := Todo.dueDate todo;
     Todo.notes := Todo.notes todo;
     Todo.tags := Todo.tags todo |}.

Definition toggleTodo (id : jsstring) (st : St.t) : St.t * option Toast :=
  (set_todos
     ((λ todo, if decide (Todo.id todo = id) then flip todo else todo)
        <$> St.todos st) st,
   None).

Definition deleteTodo (id : jsstring) (st : St.t) : St.t * option Toast :=
  (set_todos (filter (λ todo, Todo.id todo ≠ id) (St.todos st)) st,
   Some {| title := js "Success";
           description := js "Todo deleted successfully";
           variant := None |}).

(** ** Arrays in the store *)

(** [Array.prototype.sort]. ECMAScript fixes its result for a consistent
    comparator only: the result is then the one sorted, stable rearrangement
    of the array, whatever algorithm the engine runs, and that is what [sort]
    computes (see [sort_unique] and [view_engine_independent] below). For a
    comparator that is not consistent, which here is the sort key [date] on a
    collection that mixes tasks with and without a due date, the language
    leaves the order to the engine; [sort] then gives one rearrangement of
    the array, with the same tasks, and its order is not the order of every
    engine. Only the sign of [comparefn a b] is looked at. *)
Section Sort.
Context {A : Type} (comparefn : A → A → Z).

Fixpoint insertSorted (x : A) (l : list A) : list A :=
  match l with
  | [] => [x]
  | y :: l' =>
      if (comparefn x y <=? 0)%Z then x :: y :: l' else y :: insertSorted x l'
  end.

Fixpoint sort (l : list A) : list A :=
  match l with
  | [] => []
  | x :: l' => insertSorted x (sort l')
  end.

(** A comparator that agrees, on the elements of [l], with the order of an
    integer key: this is what makes it consistent. *)
Definition by_key (key : A → Z) (l : list A) : Prop :=
  ∀ a b, a ∈ l → b ∈ l → (comparefn a b ≤ 0 ↔ key a ≤ key b)%Z.

Definition key_le (key : A → Z) (a b : A) : Prop := (key a ≤ key b)%Z.

(** What ECMAScript asks of the result [out] of sorting [l], when the
    comparator follows [key]: ascending in the key, and elements of equal key
    in the order they have in [l]. *)
Definition sortedStable (key : A → Z) (l out : list A) : Prop :=
  StronglySorted (key_le key) out
  ∧ ∀ v, base.filter (λ a, key a = v) out = base.filter (λ a, key a = v) l.
End Sort.

Abbreviation loc := positive.
Abbreviation store := (gmap positive (list Todo.t)).

(** Array operations read and write the store; a dangling reference has no
    result. *)
Definition M (A : Type) : Type := store → option (A * store).

Definition bind {A B} (m : M A) (k : A → M B) : M B :=
  λ h, match m h with
       | Some (a, h') => k a h'
       | None => None
       end.

Notation "x ←ₘ m ; k" := (bind m (λ x, k))
  (at level 100, m at next level, right associativity, only parsing).

(** [a.filter(p)] allocates the array of the kept elements. *)
Definition arr_filter (p : Todo.t → bool) (a : loc) : M loc :=
  λ h, match h !! a with
       | Some xs => let r := fresh (dom h) in Some (r, <[r := filter (λ x, p x) xs]> h)
       | None => None
       end.

(** [a.sort(comparefn)] sorts [a] itself and returns the same reference. *)
Definition arr_sort (comparefn : Todo.t → Todo.t → Z) (a : loc) : M loc :=
  λ h, match h !! a with
       | Some xs => Some (a, <[a := sort comparefn xs]> h)
       | None => None
       end.

(** ** The derived list *)

Definition priorityOrder (p : Priority) : Z :=
  match p with
  | high => 0
  | medium => 1
  | low => 2
  end.

(** The comparator handed to [sort]. A time value is an integer of at most
    8.64e15 in absolute value, so the sign of the difference of two of them
    is exact. *)
Definition compareTodos (sortBy : jsstring) (a b : Todo.t) : Z :=
  if decide (sortBy = js "priority") then
    (priorityOrder (Todo.priority a) - priorityOrder (Todo.priority b))%Z
  else
    match decide (sortBy = js "date"), Todo.dueDate a, Todo.dueDate b with
    | left _, Some da, Some db => (da - db)%Z
    | _, _, _ => 0%Z
    end.

Definition keepByFilter (filter : jsstring) (todo : Todo.t) : bool :=
  if decide (filter = js "active") then negb (Todo.completed todo)
  else if decide (filter = js "completed") then Todo.completed todo
  else true.

Section View.
(** [String.prototype.toLowerCase], the case mapping of the host. *)
Variable toLowerCase : jsstring → jsstring.

Definition keepBySearch (searchQuery : jsstring) (todo : Todo.t) : bool :=
  includes (toLowerCase (Todo.text todo)) (toLowerCase searchQuery)
  || match Todo.tags todo with
     | Some ts =>
         existsb (λ tag, includes (toLowerCase tag) (toLowerCase searchQuery)) ts
     | None => false
     end.

Definition sortedAndFilteredTodos
    (todos : loc) (filter searchQuery sortBy : jsstring) : M loc :=
  byState ←ₘ arr_filter (keepByFilter filter) todos;
  filtered ←ₘ arr_filter (keepBySearch searchQuery) byState;
  arr_sort (compareTodos sortBy) filtered.

(** The content of the array [filtered] before it is sorted, and of the array
    that is returned, when [todos] is the array [l]. *)
Definition filtered (l : list Todo.t) (filter searchQuery : jsstring)
    : list Todo.t :=
  base.filter (λ todo, keepBySearch searchQuery todo)
    (base.filter (λ todo, keepByFilter filter todo) l).

Definition rendered (l : list Todo.t) (filter searchQuery sortBy : jsstring)
    : list Todo.t :=
  sort (compareTodos sortBy) (filtered l filter searchQuery).

(** What the component renders: the array [sortedAndFilteredTodos] returns,
    when [todos] is the array [l]. Its tasks are those every engine renders;
    its order is the order of every engine where the comparator is
    consistent: under [priority], under [date] when all or none of the tasks
    have a due date, and under any other sort key. *)
Definition view (l : list Todo.t) (filter searchQuery sortBy : jsstring)
    : list Todo.t :=
  match sortedAndFilteredTodos 1%positive filter searchQuery sortBy
          {[ 1%positive := l ]} with
  | Some (r, h') => default [] (h' !! r)
  | None => []
  end.
End View.

(** The case mapping on ASCII letters, where every host agrees. *)
Definition asciiLower (s : jsstring) : jsstring :=
  (λ c, if (65 <=? c) && (c <=? 90) then c + 32 else c) <$> s.

(** ** The component as a transition system *)

Inductive Event :=
  | SetNewTodo (s : jsstring)
  | SetPriority (p : Priority)
  | SetCategory (s : jsstring)
  | SetDueDate (d : option Z)
  | SetTags (s : jsstring)
  | SetNotes (s : jsstring)
  | SetSearchQuery (s : jsstring)
  | SetSortBy (s : jsstring)
  | SetFilter (s : jsstring)
  | Submit (now : Z)
  | Toggle (id : jsstring)
  | Delete (id : jsstring).

Definition step (st : St.t) (e : Event) : St.t :=
  match e with
  | SetNewTodo s =>
      St.mk (St.todos st) s (St.priority st) (St.category st) (St.filter st)
        (St.searchQuery st) (St.dueDate st) (St.notes st) (St.tags st) (St.sortBy st)
  | SetPriority p =>
      St.mk (St.todos st) (St.newTodo st) p (St.category st) (St.filter st)
        (St.searchQuery st) (St.dueDate st) (St.notes st) (St.tags st) (St.sortBy st)
  | SetCategory s =>
      St.mk (St.todos st) (St.newTodo st) (St.priority st) s (St.filter st)
        (St.searchQuery st) (St.dueDate st) (St.notes st) (St.tags st) (St.sortBy st)
  | SetDueDate d =>
      St.mk (St.todos st) (St.newTodo st) (St.priority st) (St.category st)
        (St.filter st) (St.searchQuery st) d (St.notes st) (St.tags st) (St.sortBy st)
  | SetTags s =>
      St.mk (St.todos st) (St.newTodo st) (St.priority st) (St.category st)
        (St.filter st) (St.searchQuery st) (St.dueDate st) (St.notes st) s (St.sortBy st)
  | SetNotes s =>
      St.mk (St.todos st) (St.newTodo st) (St.priority st) (St.category st)
        (St.filter st) (St.searchQuery st) (St.dueDate st) s (St.tags st) (St.sortBy st)
  | SetSearchQuery s =>
      St.mk (St.todos st) (St.newTodo st) (St.priority st) (St.category st)
        (St.filter st) s (St.dueDate st) (St.notes st) (St.tags st) (St.sortBy st)
  | SetSortBy s =>
      St.mk (St.todos st) (St.newTodo st) (St.priority st) (St.category st)
        (St.filter st) (St.searchQuery st) (St.dueDate st) (St.notes st) (St.tags st) s
  | SetFilter s =>
      St.mk (St.todos st) (St.newTodo st) (St.priority st) (St.category st) s
        (St.searchQuery st) (St.dueDate st) (St.notes st) (St.tags st) (St.sortBy st)
  | Submit now => fst (addTodo now st)
  | Toggle id => fst (toggleTodo id st)
  | Delete id => fst (deleteTodo id st)
  end.

(** The state after a sequence of events. *)
Definition runFrom (st : St.t) (es : list Event) : St.t := fold_left step es st.

(** The same from the initial render. *)
Definition run (es : list Event) : St.t := runFrom initial es.

(** The clock readings of the submissions among the events. *)
Definition submitTimes (es : list Event) : list Z :=
  omap (λ e, match e with Submit now => Some now | _ => None end) es.

(** Both tasks have a due date, and the first is not after the second. *)
Definition dueDate_le (a b : Todo.t) : Prop :=
  ∃ da db, Todo.dueDate a = Some da ∧ Todo.dueDate b = Some db ∧ (da ≤ db)%Z.

(** Type a text and submit, twice, the clock reading [now] both times. *)
Definition twoCreates (now : Z) : list Event :=
  [SetNewTodo (js "Buy milk"); Submit now; SetNewTodo (js "Buy milk"); Submit now].

(** ** What a row shows *)

(** A value of the union ['low' | 'medium' | 'high'] as the string it is. *)
Definition priorityName (p : Priority) : jsstring :=
  match p with
  | low => js "low"
  | medium => js "medium"
  | high => js "high"
  end.

(** [getPriorityColor]; its parameter is a [string]. *)
Definition getPriorityColor (priority : jsstring) : jsstring :=
  if decide (priority = js "low") then js "bg-todo-low"
  else if decide (priority = js "medium") then js "bg-todo-medium"
  else if decide (priority = js "high") then js "bg-todo-high"
  else js "bg-todo-medium".

(** [todo.notes || todo.tags?.length > 0], the condition under which a row
    shows its notes and tags. *)
Definition showsDetails (todo : Todo.t) : bool :=
  match Todo.notes todo with
  | Some (_ :: _) => true
  | _ => match Todo.tags todo with
         | Some ts => bool_decide (0 < length ts)%nat
         | None => false
         end
  end.

(** The task with its [completed] set to [c]. *)
Definition withCompleted (c : bool) (todo : Todo.t) : Todo.t :=
  {| Todo.id := Todo.id todo;
     Todo.text := Todo.text todo;
     Todo.completed := c;
     Todo.priority := Todo.priority todo;
     Todo.category := Todo.category todo;
     Todo.dueDate := Todo.dueDate todo;
     Todo.notes := Todo.notes todo;
     Todo.tags := Todo.tags todo |}.

(** The code units of a raw tags input that leave no tag: white space and
    the comma. *)
Definition isBlankOrComma (c : N) : bool := isWhiteSpace c || (c =? 44).

(** * Facts *)

(** ** Strings *)

Example split_example :
  split 44 (js "a, b ,, c") = [js "a"; js " b "; js ""; js " c"].
Proof. reflexivity. Qed.

Example parseTags_example :
  parseTags (js "a, b ,, c") = [js "a"; js "b"; js "c"].
Proof. vm_compute. reflexivity. Qed.

Example toString_examples :
  Number_toString 0 = js "0" ∧ Number_toString 1700000000000 = js "1700000000000"
  ∧ Number_toString (-15) = js "-15".
Proof. vm_compute. auto. Qed.

Example trim_examples :
  trim (js "  Buy milk ") = js "Buy milk" ∧ trim (js "   ") = js ""
  ∧ trim [9; 160; 8203; 8232] = [8203].
Proof. vm_compute. auto. Qed.

Lemma trimStart_suffix s : ∃ ws, s = ws ++ trimStart s ∧ forallb isWhiteSpace ws = true.
Proof.
  induction s as [|c s [ws [E W]]]; simpl.
  - by exists [].
  - destruct (isWhiteSpace c) eqn:Hc.
    + exists (c :: ws). simpl. rewrite Hc, W. split; [by f_equal | done].
    + by exists [].
Qed.

Lemma trimStart_head s c s' : trimStart s = c :: s' → isWhiteSpace c = false.
Proof.
  induction s as [|d s IH]; simpl; [done|].
  destruct (isWhiteSpace d) eqn:Hd; [done|]. by intros [= <- _].
Qed.

Lemma trimStart_all_white s : forallb isWhiteSpace s = true → trimStart s = [].
Proof.
  induction s as [|c s IH]; simpl; [done|].
  intros [Hc Hs]%andb_prop. rewrite Hc. auto.
Qed.

Lemma trimStart_nil_white s : trimStart s = [] → forallb isWhiteSpace s = true.
Proof.
  induction s as [|c s IH]; simpl; [done|].
  destruct (isWhiteSpace c); [auto | done].
Qed.

Lemma forallb_rev_white s :
  forallb isWhiteSpace (rev s) = forallb isWhiteSpace s.
Proof.
  induction s as [|c s IH]; simpl; [done|].
  rewrite forallb_app, IH. simpl. rewrite andb_true_r. apply andb_comm.
Qed.

(** The trimmed string is empty exactly when every code unit is white space. *)
Lemma trim_nil_iff s : trim s = [] ↔ forallb isWhiteSpace s = true.
Proof.
  unfold trim, trimEnd. split.
  - intros H. apply (f_equal (@rev N)) in H. rewrite rev_involutive in H.
    simpl in H. apply trimStart_nil_white in H. rewrite forallb_rev_white in H.
    destruct (trimStart_suffix s) as [ws [E W]]. rewrite E, forallb_app, W, H. done.
  - intros H. rewrite (trimStart_all_white s H). done.
Qed.

Lemma startsWith_spec p s : startsWith p s = true ↔ ∃ post, s = p ++ post.
Proof.
  revert s. induction p as [|a p IH]; intros s; simpl.
  - split; [by exists s | done].
  - destruct s as [|b s].
    + split; [done | by intros [post ?]].
    + rewrite andb_true_iff, N.eqb_eq, IH. split.
      * intros [-> [post ->]]. by exists post.
      * intros [post [= -> ->]]. eauto.
Qed.

(** [includes] decides the substring relation. *)
Lemma includes_spec s t : includes s t = true ↔ isSubstring t s.
Proof.
  unfold isSubstring.
  induction s as [|c s IH].
  - simpl. rewrite orb_false_r, startsWith_spec. split.
    + intros [post E]. by exists [], post.
    + intros [pre [post E]]. exists [].
      symmetry in E. apply app_eq_nil in E as [_ E].
      apply app_eq_nil in E as [-> _]. done.
  - cbn [includes]. rewrite orb_true_iff, startsWith_spec, IH. split.
    + intros [[post E] | [pre [post E]]].
      * by exists [], post.
      * exists (c :: pre), post. by rewrite E.
    + intros [[|d pre] [post E]].
      * left. by exists post.
      * right. injection E as _ E. by exists pre, post.
Qed.

(** [split] is the inverse of joining with the separator, and no piece holds
    a separator: the two facts fix the pieces. *)
Lemma split_nonempty sep s : split sep s ≠ [].
Proof.
  destruct s as [|c s]; simpl; [done|].
  destruct (c =? sep); [done|]. by destruct (split sep s).
Qed.

Lemma join_split sep s : join sep (split sep s) = s.
Proof.
  induction s as [|c s IH]; simpl; [done|].
  destruct (c =? sep) eqn:Hc.
  - apply N.eqb_eq in Hc as ->.
    pose proof (split_nonempty sep s).
    destruct (split sep s) as [|p ps] eqn:E; [done|].
    change (join sep ([] :: p :: ps)) with (sep :: join sep (p :: ps)).
    by rewrite IH.
  - pose proof (split_nonempty sep s).
    destruct (split sep s) as [|p ps] eqn:E; [done|].
    destruct ps as [|q ps]; simpl in *; by rewrite IH.
Qed.

Lemma split_no_sep sep s : Forall (λ piece, sep ∉ piece) (split sep s).
Proof.
  induction s as [|c s IH]; simpl.
  - repeat constructor. apply not_elem_of_nil.
  - destruct (c =? sep) eqn:Hc.
    + constructor; [apply not_elem_of_nil | done].
    + apply N.eqb_neq in Hc.
      destruct (split sep s) as [|p ps].
      * repeat constructor. rewrite not_elem_of_cons. split; [done | apply not_elem_of_nil].
      * apply Forall_cons in IH as [Hp Hps].
        constructor; [by rewrite not_elem_of_cons | done].
Qed.

Lemma join_cons_cons sep p q qs :
  join sep (p :: q :: qs) = p ++ sep :: join sep (q :: qs).
Proof. done. Qed.

Lemma split_unique sep s pieces :
  pieces ≠ [] → join sep pieces = s → Forall (λ piece, sep ∉ piece) pieces →
  pieces = split sep s.
Proof.
  revert pieces. induction s as [|c s IH]; intros pieces Hne Hj Hs.
  - destruct pieces as [|p [|q qs]]; [done| |].
    + simpl in Hj. by subst.
    + rewrite join_cons_cons in Hj. by destruct p.
  - destruct pieces as [|p rest]; [done|].
    inversion_clear Hs as [|? ? Hp Hrest]. simpl.
    destruct p as [|d p].
    + destruct rest as [|q qs]; [done|].
      rewrite join_cons_cons in Hj. simplify_eq/=.
      rewrite N.eqb_refl. f_equal. by apply IH.
    + assert (d = c) as ->.
      { destruct rest; simpl in Hj; congruence. }
      assert ((c =? sep) = false) as ->.
      { apply N.eqb_neq. intros ->. apply Hp. by left. }
      assert (p :: rest = split sep s) as <-; [|done].
      apply IH; [done| |].
      * destruct rest as [|q qs]; simpl in Hj |- *; congruence.
      * constructor; [|done]. intros Hin. apply Hp. by right.
Qed.

(** The decimal numeral determines the integer. *)
Lemma js_inj s1 s2 : js s1 = js s2 → s1 = s2.
Proof.
  unfold js. revert s2. induction s1 as [|a s1 IH]; intros [|b s2]; simpl; try done.
  intros [= Hab H]. f_equal; [|by apply IH].
  rewrite <- (ascii_N_embedding a), <- (ascii_N_embedding b). by rewrite Hab.
Qed.

Lemma to_int_nonnil n : Z.to_int n ≠ Decimal.Pos Decimal.Nil ∧ Z.to_int n ≠ Decimal.Neg Decimal.Nil.
Proof.
  destruct n as [|p|p]; simpl; split; try done; intros [= H];
    by apply DecimalPos.Unsigned.to_uint_nonnil in H.
Qed.

Lemma Number_toString_inj n m : Number_toString n = Number_toString m → n = m.
Proof.
  unfold Number_toString. intros H%js_inj.
  apply DecimalZ.to_int_inj.
  apply (f_equal NilZero.int_of_string) in H.
  destruct (to_int_nonnil n), (to_int_nonnil m).
  rewrite !NilZero.isi in H by done. congruence.
Qed.

(** ** Sorting *)

Section SortFacts.
Context {A : Type} (comparefn : A → A → Z).

Lemma insertSorted_perm x l : insertSorted comparefn x l ≡ₚ x :: l.
Proof.
  induction l as [|y l IH]; simpl; [done|].
  destruct (comparefn x y <=? 0)%Z; [done|].
  rewrite IH. apply Permutation_swap.
Qed.

Lemma sort_perm l : sort comparefn l ≡ₚ l.
Proof.
  induction l as [|x l IH]; simpl; [done|].
  by rewrite insertSorted_perm, IH.
Qed.

Lemma elem_of_sort x l : x ∈ sort comparefn l ↔ x ∈ l.
Proof. by rewrite sort_perm. Qed.

Lemma length_sort l : length (sort comparefn l) = length l.
Proof. by rewrite sort_perm. Qed.

Lemma by_key_cons key x l : by_key comparefn key (x :: l) → by_key comparefn key l.
Proof. intros H a b Ha Hb. apply H; by right. Qed.

Lemma insertSorted_sorted key x l :
  (∀ b, b ∈ l → (comparefn x b ≤ 0 ↔ key x ≤ key b)%Z) →
  StronglySorted (key_le key) l →
  StronglySorted (key_le key) (insertSorted comparefn x l).
Proof.
  intros Hx Hl. induction Hl as [|y l Hl IH Hy]; simpl.
  - repeat constructor.
  - destruct (Z.leb_spec (comparefn x y) 0) as [Hc|Hc].
    + apply Hx in Hc; [|by left].
      constructor; [by constructor|].
      constructor; [done|].
      eapply Forall_impl; [exact Hy|]. unfold key_le. intros; simpl in *; lia.
    + assert (key y < key x)%Z as Hlt.
      { destruct (Z.le_gt_cases (key x) (key y)) as [Hle|]; [|lia].
        apply Hx in Hle; [lia | by left]. }
      constructor.
      * apply IH. intros b Hb. apply Hx. by right.
      * rewrite insertSorted_perm. apply Forall_cons. split; [|done].
        unfold key_le. lia.
Qed.

Lemma sort_sorted key l :
  by_key comparefn key l → StronglySorted (key_le key) (sort comparefn l).
Proof.
  induction l as [|x l IH]; intros Hk; simpl; [constructor|].
  apply insertSorted_sorted.
  - intros b Hb. rewrite elem_of_sort in Hb.
    apply Hk; apply elem_of_cons; auto.
  - apply IH. by eapply by_key_cons.
Qed.

(** Stability: elements of equal key keep their order. *)
Lemma insertSorted_stable key v x l :
  (∀ b, b ∈ l → (comparefn x b ≤ 0 ↔ key x ≤ key b)%Z) →
  filter (λ a, key a = v) (insertSorted comparefn x l)
  = filter (λ a, key a = v) (x :: l).
Proof.
  induction l as [|y l IH]; intros Hx; simpl; [done|].
  destruct (Z.leb_spec (comparefn x y) 0) as [Hc|Hc]; [done|].
  assert (key y < key x)%Z as Hlt.
  { destruct (Z.le_gt_cases (key x) (key y)) as [Hle|]; [|lia].
    apply Hx in Hle; [lia | by left]. }
  assert (filter (λ a, key a = v) (insertSorted comparefn x l)
          = filter (λ a, key a = v) (x :: l)) as IH'.
  { apply IH. intros b Hb. apply Hx. by right. }
  rewrite (filter_cons _ y), IH'. rewrite !(filter_cons _ x), !(filter_cons _ y).
  repeat case_decide; try done; lia.
Qed.

Lemma sort_stable key v l :
  by_key comparefn key l →
  filter (λ a, key a = v) (sort comparefn l) = filter (λ a, key a = v) l.
Proof.
  induction l as [|x l IH]; intros Hk; simpl; [done|].
  rewrite insertSorted_stable.
  - rewrite !(filter_cons _ x), IH; [done | by eapply by_key_cons].
  - intros b Hb. rewrite elem_of_sort in Hb.
    apply Hk; apply elem_of_cons; auto.
Qed.

(** Two sorted lists with the same elements in the same order within each
    key are the same list. *)
Lemma sorted_stable_unique key (l1 l2 : list A) :
  StronglySorted (key_le key) l1 → StronglySorted (key_le key) l2 →
  (∀ v, filter (λ a, key a = v) l1 = filter (λ a, key a = v) l2) →
  l1 = l2.
Proof.
  intros H1. revert l2. induction H1 as [|x l1 H1 IH Hx]; intros l2 H2 Hf.
  - destruct l2 as [|y l2]; [done|].
    specialize (Hf (key y)). by rewrite filter_cons_True in Hf.
  - destruct H2 as [|y l2 H2 Hy].
    { specialize (Hf (key x)). by rewrite filter_cons_True in Hf. }
    assert (key x = key y) as Hxy.
    { apply Z.le_antisymm.
      - assert (y ∈ filter (λ a, key a = key y) (x :: l1)) as Hin.
        { rewrite Hf, filter_cons_True by done. apply elem_of_cons. auto. }
        apply list_elem_of_filter in Hin as [_ Hin].
        apply elem_of_cons in Hin as [->|Hin]; [done|].
        by eapply (proj1 (Forall_forall _ _) Hx).
      - assert (x ∈ filter (λ a, key a = key x) (y :: l2)) as Hin.
        { rewrite <- Hf, filter_cons_True by done. apply elem_of_cons. auto. }
        apply list_elem_of_filter in Hin as [_ Hin].
        apply elem_of_cons in Hin as [->|Hin]; [done|].
        by eapply (proj1 (Forall_forall _ _) Hy). }
    assert (x = y) as ->.
    { specialize (Hf (key x)).
      rewrite filter_cons_True, (filter_cons_True _ y) in Hf by done.
      congruence. }
    f_equal. apply IH; [done|]. intros v. specialize (Hf v).
    rewrite !(filter_cons _ y) in Hf. case_decide; congruence.
Qed.

(** Any sorted and stable rearrangement of [l] is [sort comparefn l]: with a
    consistent comparator the result does not depend on the algorithm. *)
Lemma sort_unique key (l out : list A) :
  by_key comparefn key l →
  StronglySorted (key_le key) out →
  (∀ v, filter (λ a, key a = v) out = filter (λ a, key a = v) l) →
  out = sort comparefn l.
Proof.
  intros Hk Hs Hf. apply (sorted_stable_unique key); [done | by apply sort_sorted |].
  intros v. by rewrite Hf, sort_stable.
Qed.
End SortFacts.

(** ** The store *)

Lemma arr_filter_run p a (h : store) xs :
  h !! a = Some xs →
  ∃ r, arr_filter p a h = Some (r, <[r := filter (λ x, p x) xs]> h) ∧ h !! r = None.
Proof.
  intros Ha. exists (fresh (dom h)). unfold arr_filter. rewrite Ha. split; [done|].
  apply not_elem_of_dom, is_fresh.
Qed.

Section ViewFacts.
Variable toLowerCase : jsstring → jsstring.

(** The memo always has a result; it is a new array, and every array that
    was in the store before is as it was. *)
Lemma sortedAndFilteredTodos_run (h : store) todos l filter searchQuery sortBy :
  h !! todos = Some l →
  ∃ r h',
    sortedAndFilteredTodos toLowerCase todos filter searchQuery sortBy h = Some (r, h')
    ∧ h' !! r = Some (rendered toLowerCase l filter searchQuery sortBy)
    ∧ h !! r = None
    ∧ ∀ a, is_Some (h !! a) → h' !! a = h !! a.
Proof.
  intros Ht. unfold sortedAndFilteredTodos, bind.
  destruct (arr_filter_run (keepByFilter filter) todos h l Ht) as [r1 [-> Hr1]].
  set (h1 := <[r1 := _]> h).
  assert (h1 !! r1 = Some (base.filter (λ x, keepByFilter filter x) l)) as H1
    by apply lookup_insert_eq.
  destruct (arr_filter_run (keepBySearch toLowerCase searchQuery) r1 h1 _ H1)
    as [r2 [-> Hr2]].
  set (h2 := <[r2 := _]> h1).
  unfold arr_sort. assert (h2 !! r2 = Some
    (base.filter (λ x, keepBySearch toLowerCase searchQuery x)
       (base.filter (λ x, keepByFilter filter x) l))) as ->
    by apply lookup_insert_eq.
  assert (r2 ≠ r1) as Hne by (intros ->; congruence).
  eexists _, _. split; [done|]. split; [apply lookup_insert_eq|].
  assert (h !! r2 = None) as Hr2'.
  { unfold h1 in Hr2. by rewrite lookup_insert_ne in Hr2. }
  split; [done|].
  intros a [xs Ha]. unfold h2, h1.
  rewrite !lookup_insert_ne; [done | congruence..].
Qed.

Lemma view_rendered l filter searchQuery sortBy :
  view toLowerCase l filter searchQuery sortBy
  = rendered toLowerCase l filter searchQuery sortBy.
Proof.
  unfold view.
  destruct (sortedAndFilteredTodos_run {[ 1%positive := l ]} 1%positive l
              filter searchQuery sortBy) as (r & h' & -> & -> & _).
  - apply lookup_singleton_eq.
  - done.
Qed.

Lemma elem_of_view l filter searchQuery sortBy x :
  x ∈ view toLowerCase l filter searchQuery sortBy ↔
  x ∈ l ∧ keepByFilter filter x = true ∧ keepBySearch toLowerCase searchQuery x = true.
Proof.
  rewrite view_rendered. unfold rendered, filtered.
  rewrite elem_of_sort, !list_elem_of_filter, !Is_true_true. tauto.
Qed.
End ViewFacts.

(** ** Adding a task *)

Lemma addTodo_rejects now st :
  trim (St.newTodo st) = [] →
  addTodo now st =
    (st, Some {| title := js "Error";
                 description := js "Todo text cannot be empty";
                 variant := Some (js "destructive") |}).
Proof. intros H. unfold addTodo. by rewrite decide_True. Qed.

Lemma addTodo_accepts now st :
  trim (St.newTodo st) ≠ [] →
  St.todos (fst (addTodo now st)) =
    St.todos st ++
      [Todo.mk (Number_toString now) (St.newTodo st) false (St.priority st)
         (St.category st) (St.dueDate st) (Some (St.notes st))
         (Some (parseTags (St.tags st)))].
Proof. intros H. unfold addTodo. by rewrite decide_False. Qed.

Lemma run_snoc es e : run (es ++ [e]) = step (run es) e.
Proof. unfold run, runFrom. by rewrite fold_left_app. Qed.

(** Where a task of the next state comes from. *)
Lemma todos_step st e x :
  x ∈ St.todos (step st e) →
  x ∈ St.todos st
  ∨ (∃ y, y ∈ St.todos st ∧ x = flip y)
  ∨ (∃ now, e = Submit now ∧ trim (St.newTodo st) ≠ [] ∧
       x = Todo.mk (Number_toString now) (St.newTodo st) false (St.priority st)
             (St.category st) (St.dueDate st) (Some (St.notes st))
             (Some (parseTags (St.tags st)))).
Proof.
  destruct e; simpl; auto.
  - destruct (decide (trim (St.newTodo st) = [])) as [E|E].
    + rewrite addTodo_rejects by done. auto.
    + rewrite addTodo_accepts by done. rewrite elem_of_app, list_elem_of_singleton.
      intros [?| ->]; [auto|]. right. right. by exists now.
  - rewrite list_elem_of_fmap. intros (y & -> & Hy).
    case_decide; [|auto]. right. left. by exists y.
  - rewrite list_elem_of_filter. intros [_ ?]. auto.
Qed.

(** A property of tasks that holds of every new task and that toggling keeps
    holds of every task of every state the component reaches. *)
Lemma todos_invariant (P : Todo.t → Prop) :
  (∀ y, P y → P (flip y)) →
  (∀ now st, trim (St.newTodo st) ≠ [] →
     P (Todo.mk (Number_toString now) (St.newTodo st) false (St.priority st)
          (St.category st) (St.dueDate st) (Some (St.notes st))
          (Some (parseTags (St.tags st))))) →
  ∀ es x, x ∈ St.todos (run es) → P x.
Proof.
  intros Hflip Hnew es. induction es as [|e es IH] using rev_ind; intros x.
  - by intros ?%elem_of_nil.
  - rewrite run_snoc.
    intros [?|[(y & Hy & ->)|(now & -> & Hne & ->)]]%todos_step; auto.
Qed.

Lemma parseTags_no_empty raw : [] ∉ parseTags raw.
Proof. unfold parseTags. rewrite list_elem_of_filter. by intros [? _]. Qed.

(** The ids of the next state: those of a sublist, or one more at the end. *)
Lemma ids_step st e :
  Todo.id <$> St.todos (step st e) `sublist_of` Todo.id <$> St.todos st
  ∨ ∃ now, e = Submit now
      ∧ Todo.id <$> St.todos (step st e) = (Todo.id <$> St.todos st) ++ [Number_toString now].
Proof.
  destruct e; simpl; auto.
  - destruct (decide (trim (St.newTodo st) = [])) as [E|E].
    + rewrite addTodo_rejects by done. auto.
    + right. exists now. rewrite addTodo_accepts by done. by rewrite fmap_app.
  - left. rewrite <- list_fmap_compose.
    erewrite list_fmap_ext; [done|]. intros i x _. simpl. by case_decide.
  - left. apply fmap_sublist, sublist_filter.
Qed.

Lemma submitTimes_snoc es e :
  submitTimes (es ++ [e]) =
    submitTimes es ++ match e with Submit now => [now] | _ => [] end.
Proof. unfold submitTimes. rewrite omap_app. by destruct e. Qed.

Lemma ids_from_clock es i :
  i ∈ Todo.id <$> St.todos (run es) →
  ∃ now, now ∈ submitTimes es ∧ i = Number_toString now.
Proof.
  revert i. induction es as [|e es IH] using rev_ind; intros i.
  - by intros ?%elem_of_nil.
  - rewrite run_snoc, submitTimes_snoc.
    destruct (ids_step (run es) e) as [Hsub|(now & -> & ->)].
    + intros Hi. destruct (IH i) as (t & Ht & ->).
      * eapply sublist_subseteq; eauto.
      * exists t. rewrite elem_of_app. auto.
    + rewrite elem_of_app, list_elem_of_singleton. intros [Hi| ->].
      * destruct (IH i Hi) as (t & Ht & ->). exists t. rewrite elem_of_app. auto.
      * exists now. rewrite elem_of_app, list_elem_of_singleton. auto.
Qed.

(** As long as no two submissions read the same clock value, the ids of the
    collection are pairwise distinct. *)
Lemma ids_unique_distinct_clock es :
  NoDup (submitTimes es) → NoDup (Todo.id <$> St.todos (run es)).
Proof.
  induction es as [|e es IH] using rev_ind.
  - intros _. constructor.
  - rewrite run_snoc, submitTimes_snoc. intros Hnd.
    apply NoDup_app in Hnd as (Hes & Hfresh & _).
    destruct (ids_step (run es) e) as [Hsub|(now & -> & ->)].
    + eapply sublist_NoDup; eauto.
    + apply NoDup_app. split; [auto|]. split; [|apply NoDup_singleton].
      intros i Hi ->%list_elem_of_singleton.
      destruct (ids_from_clock es _ Hi) as (t & Ht & E).
      apply Number_toString_inj in E as <-.
      apply (Hfresh now Ht). by apply list_elem_of_singleton.
Qed.

(** * The properties of the specification *)

(** C1: a create with non-blank text is meant to give the new task an id that
    no other task has. The id is the decimal numeral of the clock reading, so
    two creates that read the same clock value, here with the same text, give
    two tasks with one id: the collection [run (twoCreates now)] has two
    tasks, both uncompleted, and their ids are equal. *)
Theorem create_same_clock_same_id (now : Z) :
  ∃ first second,
    St.todos (run (twoCreates now)) = [first; second]
    ∧ Todo.completed first = false ∧ Todo.completed second = false
    ∧ Todo.id first = Todo.id second
    ∧ ¬ NoDup (Todo.id <$> St.todos (run (twoCreates now))).
Proof.
  eexists _, _. split; [reflexivity|]. repeat split.
  cbn. intros H. apply NoDup_cons in H as [H _]. apply H. by left.
Qed.

(** C2: a create whose trimmed text is empty is rejected with the error
    toast, which carries a message, and the state, the collection included,
    is the one before the call. *)
Theorem create_rejects_blank (now : Z) (st : St.t) :
  trim (St.newTodo st) = [] →
  ∃ toast,
    addTodo now st = (st, Some toast)
    ∧ title toast = js "Error"
    ∧ description toast = js "Todo text cannot be empty"
    ∧ variant toast = Some (js "destructive")
    ∧ St.todos (fst (addTodo now st)) = St.todos st.
Proof.
  intros H. rewrite addTodo_rejects by done. eexists. by repeat split.
Qed.

Lemma create_rejects_blank_witness :
  trim (St.newTodo (step initial (SetNewTodo (js "   ")))) = []
  ∧ ∃ toast,
      addTodo 1700000000000 (step initial (SetNewTodo (js "   ")))
        = (step initial (SetNewTodo (js "   ")), Some toast)
      ∧ title toast = js "Error"
      ∧ description toast = js "Todo text cannot be empty"
      ∧ variant toast = Some (js "destructive")
      ∧ St.todos (fst (addTodo 1700000000000 (step initial (SetNewTodo (js "   ")))))
        = St.todos (step initial (SetNewTodo (js "   "))).
Proof.
  split; [reflexivity|].
  apply (create_rejects_blank 1700000000000 (step initial (SetNewTodo (js "   ")))).
  reflexivity.
Defined.

(** C9: the tags a create stores are the pieces of the raw input between its
    commas, each trimmed, the empty ones dropped, in the order of the input;
    ["a, b ,, c"] gives [["a"; "b"; "c"]]; and no task of any state the
    component reaches has an empty tag. *)
Theorem create_parses_tags :
  (∀ now st pieces,
     trim (St.newTodo st) ≠ [] →
     pieces ≠ [] → join 44 pieces = St.tags st → Forall (λ piece, 44 ∉ piece) pieces →
     ∃ todo,
       St.todos (fst (addTodo now st)) = St.todos st ++ [todo]
       ∧ Todo.tags todo = Some (filter (λ tag, tag ≠ []) (trim <$> pieces)))
  ∧ (∀ now,
       Todo.tags <$> St.todos (run [SetNewTodo (js "x"); SetTags (js "a, b ,, c"); Submit now])
       = [Some [js "a"; js "b"; js "c"]])
  ∧ (∀ es x, x ∈ St.todos (run es) → ∃ ts, Todo.tags x = Some ts ∧ [] ∉ ts).
Proof.
  split; [|split].
  - intros now st pieces Hne Hp Hj Hs. eexists. split; [by apply addTodo_accepts|].
    simpl. unfold parseTags. by rewrite <- (split_unique 44 (St.tags st) pieces).
  - intros now. reflexivity.
  - apply (todos_invariant (λ x, ∃ ts, Todo.tags x = Some ts ∧ [] ∉ ts)).
    + intros y (ts & E & Hts). by exists ts.
    + intros now st _. eexists. split; [done|]. apply parseTags_no_empty.
Qed.

Lemma create_parses_tags_witness :
  ∃ todo,
    St.todos (fst (addTodo 7 (run [SetNewTodo (js "x"); SetTags (js "a, b ,, c")])))
      = St.todos (run [SetNewTodo (js "x"); SetTags (js "a, b ,, c")]) ++ [todo]
    ∧ Todo.tags todo
      = Some (filter (λ tag, tag ≠ [])
                (trim <$> [js "a"; js " b "; js ""; js " c"])).
Proof.
  apply (proj1 create_parses_tags 7%Z
           (run [SetNewTodo (js "x"); SetTags (js "a, b ,, c")])
           [js "a"; js " b "; js ""; js " c"]).
  - vm_compute. discriminate.
  - discriminate.
  - reflexivity.
  - vm_compute. repeat constructor; intros H; repeat (apply elem_of_cons in H as [H|H]; [discriminate|]); by apply elem_of_nil in H.
Defined.

(** C10: a create stores the text as it was typed, not trimmed: only the test
    for emptiness trims. So the text of every task of every state the
    component reaches is non-empty after trimming, and it may start or end
    with white space: ["  Buy milk "] is stored as it is. *)
Theorem create_stores_raw_text :
  (∀ now st,
     trim (St.newTodo st) ≠ [] →
     ∃ todo,
       St.todos (fst (addTodo now st)) = St.todos st ++ [todo]
       ∧ Todo.text todo = St.newTodo st)
  ∧ (∀ es x, x ∈ St.todos (run es) → trim (Todo.text x) ≠ [])
  ∧ (∀ now,
       Todo.text <$> St.todos (run [SetNewTodo (js "  Buy milk "); Submit now])
       = [js "  Buy milk "]
       ∧ trim (js "  Buy milk ") = js "Buy milk").
Proof.
  split; [|split].
  - intros now st Hne. eexists. split; [by apply addTodo_accepts|]. done.
  - apply (todos_invariant (λ x, trim (Todo.text x) ≠ [])); [done|].
    by intros now st Hne.
  - intros now. split; reflexivity.
Qed.

Lemma create_stores_raw_text_witness :
  ∃ todo,
    St.todos (fst (addTodo 7 (run [SetNewTodo (js "  Buy milk ")])))
      = St.todos (run [SetNewTodo (js "  Buy milk ")]) ++ [todo]
    ∧ Todo.text todo = js "  Buy milk ".
Proof.
  apply (proj1 create_stores_raw_text 7%Z (run [SetNewTodo (js "  Buy milk ")])).
  vm_compute. discriminate.
Defined.

(** ** Toggling and deleting *)

Lemma flip_flip x : flip (flip x) = x.
Proof. destruct x. unfold flip. simpl. by rewrite negb_involutive. Qed.

Lemma set_todos_same st : set_todos (St.todos st) st = st.
Proof. by destruct st. Qed.

Lemma set_todos_twice l1 l2 st : set_todos l2 (set_todos l1 st) = set_todos l2 st.
Proof. done. Qed.

Lemma toggle_absent id (l : list Todo.t) :
  (∀ x, x ∈ l → Todo.id x ≠ id) →
  (λ todo, if decide (Todo.id todo = id) then flip todo else todo) <$> l = l.
Proof.
  induction l as [|y l IH]; intros Hno; [done|].
  rewrite fmap_cons, IH.
  - rewrite decide_False; [done|]. apply Hno, elem_of_cons. auto.
  - intros x Hx. apply Hno, elem_of_cons. auto.
Qed.

Lemma toggle_toggle id (l : list Todo.t) :
  (λ todo, if decide (Todo.id todo = id) then flip todo else todo) <$>
    ((λ todo, if decide (Todo.id todo = id) then flip todo else todo) <$> l) = l.
Proof.
  induction l as [|y l IH]; [done|].
  rewrite !fmap_cons, IH. f_equal.
  destruct (decide (Todo.id y = id)) as [E|E].
  - rewrite decide_True by done. apply flip_flip.
  - by rewrite decide_False.
Qed.

(** C7: toggle negates [completed] in the tasks with the given id and in
    nothing else: the collection keeps its length, the task at each position
    keeps all its other fields, a task with another id is the same task;
    with no task of that id the state is the same; no toast is raised; and
    toggling twice gives back the state. *)
Theorem toggle_flips_matching (id : jsstring) (st : St.t) :
  length (St.todos (fst (toggleTodo id st))) = length (St.todos st)
  ∧ (∀ i x, St.todos st !! i = Some x →
       ∃ x', St.todos (fst (toggleTodo id st)) !! i = Some x'
         ∧ Todo.id x' = Todo.id x ∧ Todo.text x' = Todo.text x
         ∧ Todo.priority x' = Todo.priority x ∧ Todo.category x' = Todo.category x
         ∧ Todo.dueDate x' = Todo.dueDate x ∧ Todo.notes x' = Todo.notes x
         ∧ Todo.tags x' = Todo.tags x
         ∧ (Todo.id x = id → Todo.completed x' = negb (Todo.completed x))
         ∧ (Todo.id x ≠ id → x' = x))
  ∧ ((∀ x, x ∈ St.todos st → Todo.id x ≠ id) → fst (toggleTodo id st) = st)
  ∧ snd (toggleTodo id st) = None
  ∧ fst (toggleTodo id (fst (toggleTodo id st))) = st.
Proof.
  unfold toggleTodo. simpl. repeat split.
  - by rewrite length_fmap.
  - intros i x Hx. rewrite list_lookup_fmap, Hx. simpl. eexists. split; [done|].
    by case_decide.
  - intros Hno. rewrite toggle_absent by done. apply set_todos_same.
  - rewrite toggle_toggle, set_todos_twice. apply set_todos_same.
Qed.

Lemma toggle_flips_matching_witness :
  fst (toggleTodo (js "9") (run [SetNewTodo (js "a"); Submit 5]))
  = run [SetNewTodo (js "a"); Submit 5].
Proof.
  apply (proj1 (proj2 (proj2 (toggle_flips_matching (js "9")
                                 (run [SetNewTodo (js "a"); Submit 5]))))).
  intros x Hx. apply list_elem_of_singleton in Hx as ->. vm_compute. discriminate.
Defined.

Lemma runFrom_snoc st es e : runFrom st (es ++ [e]) = step (runFrom st es) e.
Proof. unfold runFrom. by rewrite fold_left_app. Qed.

(** An id that is not in the collection stays out of it as long as no
    submission reads a clock value whose numeral is that id. *)
Lemma id_stays_absent id st es :
  id ∉ Todo.id <$> St.todos st →
  Forall (λ e, ∀ now, e = Submit now → Number_toString now ≠ id) es →
  id ∉ Todo.id <$> St.todos (runFrom st es).
Proof.
  intros Hst. induction es as [|e es IH] using rev_ind; [done|].
  intros [Hes He]%Forall_app. rewrite Forall_singleton in He.
  rewrite runFrom_snoc.
  destruct (ids_step (runFrom st es) e) as [Hsub|(now & -> & ->)].
  - intros Hin. apply (IH Hes). eapply sublist_subseteq; eauto.
  - rewrite elem_of_app, list_elem_of_singleton. intros [Hin| ->].
    + by apply (IH Hes).
    + by apply (He now).
Qed.

Lemma delete_absent id (l : list Todo.t) :
  (∀ x, x ∈ l → Todo.id x ≠ id) → filter (λ todo, Todo.id todo ≠ id) l = l.
Proof.
  induction l as [|y l IH]; intros Hno; [done|].
  rewrite filter_cons_True, IH.
  - done.
  - intros x Hx. apply Hno, elem_of_cons. auto.
  - apply Hno, elem_of_cons. auto.
Qed.

Section DeleteFacts.
Variable toLowerCase : jsstring → jsstring.

(** C8: delete keeps, in their order, exactly the tasks whose id is not the
    given one; the id is then in no view, whatever the filter, query and
    sort key, also after further events, as long as no create gets that id
    again; with no task of that id the state is the same. *)
Theorem delete_removes_matching (id : jsstring) (st : St.t) :
  St.todos (fst (deleteTodo id st)) = filter (λ todo, Todo.id todo ≠ id) (St.todos st)
  ∧ (∀ x, x ∈ St.todos (fst (deleteTodo id st)) ↔ x ∈ St.todos st ∧ Todo.id x ≠ id)
  ∧ St.todos (fst (deleteTodo id st)) `sublist_of` St.todos st
  ∧ (∀ es f q s x,
       Forall (λ e, ∀ now, e = Submit now → Number_toString now ≠ id) es →
       x ∈ view toLowerCase (St.todos (runFrom (fst (deleteTodo id st)) es)) f q s →
       Todo.id x ≠ id)
  ∧ ((∀ x, x ∈ St.todos st → Todo.id x ≠ id) → fst (deleteTodo id st) = st).
Proof.
  unfold deleteTodo. simpl. split; [done|]. split; [|split; [|split]].
  - intros x. rewrite list_elem_of_filter. tauto.
  - apply sublist_filter.
  - intros es f q s x Hes [Hx _]%elem_of_view E.
    apply (id_stays_absent id
             (set_todos (filter (λ todo, Todo.id todo ≠ id) (St.todos st)) st) es);
      [|done|].
    + simpl. rewrite list_elem_of_fmap.
      intros (y & Hy & [Hne _]%list_elem_of_filter). by apply Hne.
    + rewrite list_elem_of_fmap. by exists x.
  - intros Hno. rewrite delete_absent by done. apply set_todos_same.
Qed.
End DeleteFacts.

Lemma delete_removes_matching_witness :
  fst (deleteTodo (js "9") (run [SetNewTodo (js "a"); Submit 5]))
  = run [SetNewTodo (js "a"); Submit 5].
Proof.
  apply (proj2 (proj2 (proj2 (proj2 (delete_removes_matching asciiLower (js "9")
                                       (run [SetNewTodo (js "a"); Submit 5])))))).
  intros x Hx. apply list_elem_of_singleton in Hx as ->. vm_compute. discriminate.
Defined.

(** ** The view *)

Lemma compare_priority_by_key l :
  by_key (compareTodos (js "priority")) (λ x, priorityOrder (Todo.priority x)) l.
Proof. intros a b _ _. unfold compareTodos. rewrite decide_True by done. lia. Qed.

Lemma compare_date_by_key l :
  (∀ x, x ∈ l → is_Some (Todo.dueDate x)) →
  by_key (compareTodos (js "date")) (λ x, default 0%Z (Todo.dueDate x)) l.
Proof.
  intros Hall a b [da Ha]%Hall [db Hb]%Hall. unfold compareTodos.
  rewrite decide_False by done. rewrite decide_True by done.
  rewrite Ha, Hb. simpl. lia.
Qed.

(** A list sorted by a key with three values is its three classes, one after
    the other. *)
Lemma sorted_three_classes (l : list Todo.t) :
  StronglySorted (key_le (λ x, priorityOrder (Todo.priority x))) l →
  l = filter (λ x, Todo.priority x = high) l
      ++ filter (λ x, Todo.priority x = medium) l
      ++ filter (λ x, Todo.priority x = low) l.
Proof.
  induction 1 as [|x l Hl IH Hx]; [done|].
  assert (∀ p, (priorityOrder p < priorityOrder (Todo.priority x))%Z →
               filter (λ y, Todo.priority y = p) l = []) as Hnone.
  { intros p Hp. clear IH Hl. induction l as [|y l IHl]; [done|].
    apply Forall_cons in Hx as [Hy Hx]. unfold key_le in Hy.
    rewrite filter_cons_False; [by apply IHl|]. intros E. rewrite E in Hy. lia. }
  rewrite !(filter_cons _ x).
  destruct (Todo.priority x) eqn:Ep; repeat case_decide; try done.
  - rewrite (Hnone high), (Hnone medium) by (simpl; lia).
    rewrite (Hnone high), (Hnone medium) in IH by (simpl; lia).
    simpl in *. by f_equal.
  - rewrite (Hnone high) by (simpl; lia).
    rewrite (Hnone high) in IH by (simpl; lia).
    simpl in *. by f_equal.
  - simpl. by f_equal.
Qed.

Lemma StronglySorted_strengthen {A} (R R' : A → A → Prop) (P : A → Prop) l :
  (∀ a b, P a → P b → R a b → R' a b) →
  StronglySorted R l → Forall P l → StronglySorted R' l.
Proof.
  intros HR. induction 1 as [|x l Hl IH Hx]; intros HP; [constructor|].
  apply Forall_cons in HP as [Px Pl]. constructor; [by apply IH|].
  rewrite Forall_forall in *. auto.
Qed.

Lemma StronglySorted_lookup {A} (R : A → A → Prop) (l : list A) :
  StronglySorted R l →
  ∀ (i j : nat) a b, l !! i = Some a → l !! j = Some b → (i < j)%nat → R a b.
Proof.
  induction 1 as [|x l Hl IH Hx]; intros i j a b Ha Hb Hij.
  - by rewrite lookup_nil in Ha.
  - destruct j as [|j]; [lia|]. destruct i as [|i]; simpl in *.
    + injection Ha as ->. rewrite Forall_forall in Hx. apply Hx.
      by eapply list_elem_of_lookup_2.
    + apply (IH i j); [done | done | lia].
Qed.

Section ViewProperties.
Variable toLowerCase : jsstring → jsstring.

(** C3: under the sort key [date] the comparator is the difference of the
    two due dates when both tasks have one and 0, that is equal, as soon as
    one has none, so a task without a due date can stay before a task with
    one; and when every task of the collection has a due date, the view is
    the filtered tasks, each as often as the filtered array holds it, in
    ascending order of due date: of two tasks of the view the one at the
    earlier position is due no later. *)
Theorem view_date_order :
  (∀ a b da db,
     Todo.dueDate a = Some da → Todo.dueDate b = Some db →
     compareTodos (js "date") a b = (da - db)%Z)
  ∧ (∀ a b,
       Todo.dueDate a = None ∨ Todo.dueDate b = None →
       compareTodos (js "date") a b = 0%Z)
  ∧ (∀ l f q,
       (∀ x, x ∈ l → is_Some (Todo.dueDate x)) →
       view toLowerCase l f q (js "date") ≡ₚ filtered toLowerCase l f q
       ∧ length (view toLowerCase l f q (js "date"))
         = length (filtered toLowerCase l f q)
       ∧ StronglySorted dueDate_le (view toLowerCase l f q (js "date"))
       ∧ (∀ (i j : nat) a b,
            view toLowerCase l f q (js "date") !! i = Some a →
            view toLowerCase l f q (js "date") !! j = Some b →
            (i < j)%nat → dueDate_le a b))
  ∧ (∀ undated dated,
       Todo.dueDate undated = None → Todo.text undated = js "a" →
       Todo.text dated = js "a" →
       view toLowerCase [undated; dated] (js "all") (js "a") (js "date")
       = [undated; dated]).
Proof.
  split; [|split; [|split]].
  - intros a b da db Ha Hb. unfold compareTodos.
    rewrite decide_False by done. rewrite decide_True by done. by rewrite Ha, Hb.
  - intros a b H. unfold compareTodos.
    rewrite decide_False by done. rewrite decide_True by done.
    destruct H as [-> | ->]; [done|]. by destruct (Todo.dueDate a).
  - intros l f q Hall. rewrite view_rendered. unfold rendered.
    set (F := filtered toLowerCase l f q).
    assert (∀ x, x ∈ F → is_Some (Todo.dueDate x)) as HF.
    { intros x Hx. apply Hall. unfold F, filtered in Hx.
      rewrite !list_elem_of_filter in Hx. tauto. }
    pose proof (sort_sorted _ _ F (compare_date_by_key F HF)) as Hs.
    assert (StronglySorted dueDate_le (sort (compareTodos (js "date")) F)) as Hd.
    { eapply (StronglySorted_strengthen _ _ (λ x, is_Some (Todo.dueDate x)));
        [|exact Hs|].
      + intros a b [da Ha] [db Hb] Hab. exists da, db.
        unfold key_le in Hab. rewrite Ha, Hb in Hab. done.
      + rewrite Forall_forall. intros x Hx. apply HF. by rewrite elem_of_sort in Hx. }
    split; [apply sort_perm|]. split; [apply length_sort|]. split; [done|].
    intros i j a b Ha Hb Hij. by eapply StronglySorted_lookup.
  - intros undated dated Hu Tu Td. rewrite view_rendered. unfold rendered, filtered.
    assert (∀ x, Todo.text x = js "a" → keepBySearch toLowerCase (js "a") x = true) as Hk.
    { intros x Hx. unfold keepBySearch. rewrite Hx.
      apply orb_true_iff. left. apply includes_spec. exists [], [].
      by rewrite app_nil_r. }
    assert (∀ x, keepByFilter (js "all") x = true) as Ha by done.
    rewrite !filter_cons_True by (apply Is_true_true; auto).
    rewrite !filter_nil.
    simpl. unfold compareTodos. rewrite Hu.
    rewrite decide_False by done. by rewrite decide_True by done.
Qed.

(** C4: under the sort key [priority] the view is the high tasks of the
    filtered collection, then its medium tasks, then its low tasks, each
    group in the order it has in the filtered collection; so a task of a
    more urgent priority is always at an earlier position. *)
Theorem view_priority_order (l : list Todo.t) (f q : jsstring) :
  view toLowerCase l f q (js "priority")
  = filter (λ x, Todo.priority x = high) (filtered toLowerCase l f q)
    ++ filter (λ x, Todo.priority x = medium) (filtered toLowerCase l f q)
    ++ filter (λ x, Todo.priority x = low) (filtered toLowerCase l f q)
  ∧ (∀ (i j : nat) a b,
       view toLowerCase l f q (js "priority") !! i = Some a →
       view toLowerCase l f q (js "priority") !! j = Some b →
       (priorityOrder (Todo.priority a) < priorityOrder (Todo.priority b))%Z →
       (i < j)%nat).
Proof.
  rewrite view_rendered. unfold rendered.
  set (F := filtered toLowerCase l f q).
  pose proof (sort_sorted _ _ F (compare_priority_by_key F)) as Hs.
  split.
  - rewrite (sorted_three_classes _ Hs) at 1.
    assert (∀ p, filter (λ x, Todo.priority x = p) (sort (compareTodos (js "priority")) F)
                 = filter (λ x, Todo.priority x = p) F) as Hst.
    { intros p.
      pose proof (sort_stable _ _ (priorityOrder p) F (compare_priority_by_key F)) as E.
      rewrite (list_filter_iff (λ x, Todo.priority x = p)
                 (λ x, priorityOrder (Todo.priority x) = priorityOrder p)).
      - rewrite (list_filter_iff (λ x, Todo.priority x = p)
                   (λ x, priorityOrder (Todo.priority x) = priorityOrder p) F);
          [exact E|].
        intros x. split; [by intros ->|]. by destruct (Todo.priority x), p.
      - intros x. split; [by intros ->|]. by destruct (Todo.priority x), p. }
    by rewrite !Hst.
  - intros i j a b Ha Hb Hlt.
    destruct (decide (i < j)%nat) as [|Hge]; [done|]. exfalso.
    assert (j = i ∨ j < i)%nat as [->|Hji] by lia; [rewrite Ha in Hb; simplify_eq; lia|].
    pose proof (StronglySorted_lookup _ _ Hs j i b a Hb Ha Hji) as Hle.
    unfold key_le in Hle. lia.
Qed.

(** C5: a task is in the view exactly when it is in the collection, passes
    the completion filter ([active]: not completed; [completed]: completed;
    [all]: always) and the lower-cased query is a substring of its
    lower-cased text or of one of its lower-cased tags. So the [active]
    view has no completed task and the [completed] view no uncompleted
    one. *)
Theorem view_membership (l : list Todo.t) (f q s : jsstring) :
  (∀ x,
     x ∈ view toLowerCase l f q s ↔
     x ∈ l
     ∧ (f = js "active" → Todo.completed x = false)
     ∧ (f = js "completed" → Todo.completed x = true)
     ∧ (isSubstring (toLowerCase q) (toLowerCase (Todo.text x))
        ∨ ∃ ts tag, Todo.tags x = Some ts ∧ tag ∈ ts
            ∧ isSubstring (toLowerCase q) (toLowerCase tag)))
  ∧ (∀ x, x ∈ view toLowerCase l (js "all") q s ↔
          x ∈ l ∧ keepBySearch toLowerCase q x = true)
  ∧ (∀ x, x ∈ view toLowerCase l (js "active") q s → Todo.completed x = false)
  ∧ (∀ x, x ∈ view toLowerCase l (js "completed") q s → Todo.completed x = true).
Proof.
  assert (∀ x, keepByFilter f x = true ↔
               (f = js "active" → Todo.completed x = false)
               ∧ (f = js "completed" → Todo.completed x = true)) as Hf.
  { intros x. unfold keepByFilter.
    destruct (decide (f = js "active")) as [->|Ha].
    - rewrite negb_true_iff. split; [by intros -> | by intros [H _]; apply H].
    - destruct (decide (f = js "completed")) as [->|Hc].
      + split; [by intros -> | by intros [_ H]; apply H].
      + split; [done | done]. }
  assert (∀ x, keepBySearch toLowerCase q x = true ↔
               (isSubstring (toLowerCase q) (toLowerCase (Todo.text x))
                ∨ ∃ ts tag, Todo.tags x = Some ts ∧ tag ∈ ts
                    ∧ isSubstring (toLowerCase q) (toLowerCase tag))) as Hq.
  { intros x. unfold keepBySearch, isSubstring.
    rewrite orb_true_iff, includes_spec. apply or_iff_compat_l.
    destruct (Todo.tags x) as [ts|].
    - rewrite existsb_exists. split.
      + intros (tag & Hin%list_elem_of_In & Hinc%includes_spec). by exists ts, tag.
      + intros (ts' & tag & [= <-] & Hin & Hinc). exists tag.
        split; [by apply list_elem_of_In | by apply includes_spec].
    - split; [done | by intros (? & ? & ? & _)]. }
  split; [|split; [|split]].
  - intros x. rewrite elem_of_view, Hf, Hq. tauto.
  - intros x. rewrite elem_of_view. split; [tauto|]. by intros [? ?].
  - intros x [_ [H _]]%elem_of_view. by apply negb_true_iff in H.
  - by intros x [_ [H _]]%elem_of_view.
Qed.

(** C6: evaluating the view always gives a result, a new array, and leaves
    the array of the collection, like every array that was in the store
    before, with the same tasks in the same order. *)
Theorem view_leaves_collection (h : store) (todos : loc) (l : list Todo.t)
    (f q s : jsstring) :
  h !! todos = Some l →
  ∃ r h',
    sortedAndFilteredTodos toLowerCase todos f q s h = Some (r, h')
    ∧ h' !! todos = Some l
    ∧ (∀ a, is_Some (h !! a) → h' !! a = h !! a)
    ∧ r ≠ todos
    ∧ h' !! r = Some (view toLowerCase l f q s).
Proof.
  intros Ht.
  destruct (sortedAndFilteredTodos_run toLowerCase h todos l f q s Ht)
    as (r & h' & Hrun & Hr & Hfresh & Hframe).
  exists r, h'. split; [done|]. split; [|split; [done|split]].
  - rewrite Hframe; [done | by rewrite Ht].
  - intros ->. congruence.
  - by rewrite view_rendered.
Qed.
End ViewProperties.

(** ** The properties at concrete collections *)

Lemma view_date_order_witness :
  (view asciiLower
     [Todo.mk (js "1") (js "pay rent") false low (js "personal") (Some 50%Z) None None;
      Todo.mk (js "2") (js "buy milk") true high (js "shopping") (Some 30%Z) None None;
      Todo.mk (js "3") (js "call home") false medium (js "personal") (Some 10%Z) None None]
     (js "all") (js "") (js "date")
   ≡ₚ filtered asciiLower
        [Todo.mk (js "1") (js "pay rent") false low (js "personal") (Some 50%Z) None None;
         Todo.mk (js "2") (js "buy milk") true high (js "shopping") (Some 30%Z) None None;
         Todo.mk (js "3") (js "call home") false medium (js "personal") (Some 10%Z) None None]
        (js "all") (js "")
   ∧ length
       (view asciiLower
          [Todo.mk (js "1") (js "pay rent") false low (js "personal") (Some 50%Z) None None;
           Todo.mk (js "2") (js "buy milk") true high (js "shopping") (Some 30%Z) None None;
           Todo.mk (js "3") (js "call home") false medium (js "personal") (Some 10%Z) None None]
          (js "all") (js "") (js "date"))
     = length
         (filtered asciiLower
            [Todo.mk (js "1") (js "pay rent") false low (js "personal") (Some 50%Z) None None;
             Todo.mk (js "2") (js "buy milk") true high (js "shopping") (Some 30%Z) None None;
             Todo.mk (js "3") (js "call home") false medium (js "personal") (Some 10%Z) None None]
            (js "all") (js ""))
   ∧ StronglySorted dueDate_le
       (view asciiLower
          [Todo.mk (js "1") (js "pay rent") false low (js "personal") (Some 50%Z) None None;
           Todo.mk (js "2") (js "buy milk") true high (js "shopping") (Some 30%Z) None None;
           Todo.mk (js "3") (js "call home") false medium (js "personal") (Some 10%Z) None None]
          (js "all") (js "") (js "date"))
   ∧ (∀ (i j : nat) a b,
        view asciiLower
          [Todo.mk (js "1") (js "pay rent") false low (js "personal") (Some 50%Z) None None;
           Todo.mk (js "2") (js "buy milk") true high (js "shopping") (Some 30%Z) None None;
           Todo.mk (js "3") (js "call home") false medium (js "personal") (Some 10%Z) None None]
          (js "all") (js "") (js "date") !! i = Some a →
        view asciiLower
          [Todo.mk (js "1") (js "pay rent") false low (js "personal") (Some 50%Z) None None;
           Todo.mk (js "2") (js "buy milk") true high (js "shopping") (Some 30%Z) None None;
           Todo.mk (js "3") (js "call home") false medium (js "personal") (Some 10%Z) None None]
          (js "all") (js "") (js "date") !! j = Some b →
        (i < j)%nat → dueDate_le a b))
  ∧ view asciiLower
      [Todo.mk (js "1") (js "pay rent") false low (js "personal") (Some 50%Z) None None;
       Todo.mk (js "2") (js "buy milk") true high (js "shopping") (Some 30%Z) None None;
       Todo.mk (js "3") (js "call home") false medium (js "personal") (Some 10%Z) None None]
      (js "all") (js "") (js "date")
    = [Todo.mk (js "3") (js "call home") false medium (js "personal") (Some 10%Z) None None;
       Todo.mk (js "2") (js "buy milk") true high (js "shopping") (Some 30%Z) None None;
       Todo.mk (js "1") (js "pay rent") false low (js "personal") (Some 50%Z) None None]
  ∧ length
      (filtered asciiLower
         [Todo.mk (js "1") (js "pay rent") false low (js "personal") (Some 50%Z) None None;
          Todo.mk (js "2") (js "buy milk") true high (js "shopping") (Some 30%Z) None None;
          Todo.mk (js "3") (js "call home") false medium (js "personal") (Some 10%Z) None None]
         (js "all") (js "")) = 3%nat.
Proof.
  split; [|split; vm_compute; reflexivity].
  apply (proj1 (proj2 (proj2 (view_date_order asciiLower)))).
  intros x Hx. repeat (apply elem_of_cons in Hx as [->|Hx]; [by eexists|]).
  by apply elem_of_nil in Hx.
Defined.

Lemma view_priority_order_witness :
  view asciiLower
    [Todo.mk (js "1") (js "pay rent") false low (js "personal") None None None;
     Todo.mk (js "2") (js "buy milk") false medium (js "shopping") None None None;
     Todo.mk (js "3") (js "call home") false high (js "personal") None None None]
    (js "all") (js "") (js "priority") !! 1%nat
  = Some (Todo.mk (js "2") (js "buy milk") false medium (js "shopping") None None None)
  ∧ (1 < 2)%nat.
Proof.
  split; [vm_compute; reflexivity|].
  apply (proj2 (view_priority_order asciiLower
                  [Todo.mk (js "1") (js "pay rent") false low (js "personal") None None None;
                   Todo.mk (js "2") (js "buy milk") false medium (js "shopping") None None None;
                   Todo.mk (js "3") (js "call home") false high (js "personal") None None None]
                  (js "all") (js "")) 1%nat 2%nat
           (Todo.mk (js "2") (js "buy milk") false medium (js "shopping") None None None)
           (Todo.mk (js "1") (js "pay rent") false low (js "personal") None None None)).
  - vm_compute. reflexivity.
  - vm_compute. reflexivity.
  - vm_compute. reflexivity.
Defined.

(** A task tagged ["Urgent"] is found by the query ["urg"]. *)
Lemma view_membership_witness :
  Todo.mk (js "1") (js "Pay rent") false low (js "personal") None (Some (js ""))
    (Some [js "Urgent"])
  ∈ view asciiLower
      [Todo.mk (js "1") (js "Pay rent") false low (js "personal") None (Some (js ""))
         (Some [js "Urgent"])]
      (js "active") (js "urg") (js "date").
Proof.
  apply (proj1 (view_membership asciiLower _ _ _ _)).
  split; [apply list_elem_of_singleton; reflexivity|].
  split; [reflexivity|]. split; [discriminate|].
  right. exists [js "Urgent"], (js "Urgent").
  split; [reflexivity|]. split; [apply list_elem_of_singleton; reflexivity|].
  exists [], (js "ent"). vm_compute. reflexivity.
Defined.

Lemma view_leaves_collection_witness :
  ∃ r h',
    sortedAndFilteredTodos asciiLower 1%positive (js "all") (js "") (js "priority")
      {[ 1%positive :=
           [Todo.mk (js "1") (js "pay rent") false low (js "personal") None None None;
            Todo.mk (js "2") (js "buy milk") false high (js "shopping") None None None] ]}
    = Some (r, h')
    ∧ h' !! 1%positive
      = Some [Todo.mk (js "1") (js "pay rent") false low (js "personal") None None None;
              Todo.mk (js "2") (js "buy milk") false high (js "shopping") None None None]
    ∧ (∀ a, is_Some
              (({[ 1%positive :=
                     [Todo.mk (js "1") (js "pay rent") false low (js "personal") None None None;
                      Todo.mk (js "2") (js "buy milk") false high (js "shopping") None None None] ]}
                 : store) !! a) →
            h' !! a
            = ({[ 1%positive :=
                    [Todo.mk (js "1") (js "pay rent") false low (js "personal") None None None;
                     Todo.mk (js "2") (js "buy milk") false high (js "shopping") None None None] ]}
                : store) !! a)
    ∧ r ≠ 1%positive
    ∧ h' !! r
      = Some (view asciiLower
                [Todo.mk (js "1") (js "pay rent") false low (js "personal") None None None;
                 Todo.mk (js "2") (js "buy milk") false high (js "shopping") None None None]
                (js "all") (js "") (js "priority")).
Proof.
  apply (view_leaves_collection asciiLower). vm_compute. reflexivity.
Defined.

(** Sorting the array of the collection itself would rewrite it: the view is
    harmless because it sorts the array that [filter] allocated. *)
Example sort_in_place_writes :
  ∀ a b : Todo.t,
    Todo.priority a = low → Todo.priority b = high →
    arr_sort (compareTodos (js "priority")) 1%positive {[ 1%positive := [a; b] ]}
    = Some (1%positive, {[ 1%positive := [b; a] ]}).
Proof.
  intros a b Ha Hb. unfold arr_sort. rewrite lookup_singleton_eq.
  simpl. unfold compareTodos. rewrite decide_True by done. rewrite Ha, Hb. simpl.
  by rewrite insert_singleton_eq.
Qed.

(** The comparator under [date] is not consistent on a collection that mixes
    tasks with and without a due date: [m] is equal to both [a] and [b],
    which are not equal. *)
Example date_comparator_not_transitive :
  ∀ a m b : Todo.t,
    Todo.dueDate a = Some 1%Z → Todo.dueDate m = None → Todo.dueDate b = Some 2%Z →
    compareTodos (js "date") b m = 0%Z ∧ compareTodos (js "date") m a = 0%Z
    ∧ compareTodos (js "date") b a = 1%Z.
Proof.
  intros a m b Ha Hm Hb.
  assert (compareTodos (js "date") b m = 0%Z) as Hbm.
  { unfold compareTodos. rewrite decide_False by done. rewrite decide_True by done.
    by rewrite Hb, Hm. }
  assert (compareTodos (js "date") m a = 0%Z) as Hma.
  { unfold compareTodos. rewrite decide_False by done. rewrite decide_True by done.
    by rewrite Hm. }
  assert (compareTodos (js "date") b a = 1%Z) as Hba.
  { unfold compareTodos. rewrite decide_False by done. rewrite decide_True by done.
    by rewrite Hb, Ha. }
  done.
Qed.

(** * Further properties of the component *)

(** ** Adding a task *)

(** X1: a create with non-blank text keeps every task where it is and puts
    one task after them: uncompleted, its id the numeral of the clock
    reading, its text, priority, category, due date and notes those of the
    form; and it raises the success toast. *)
Theorem create_appends_task (now : Z) (st : St.t) :
  trim (St.newTodo st) ≠ [] →
  ∃ todo,
    St.todos (fst (addTodo now st)) = St.todos st ++ [todo]
    ∧ length (St.todos (fst (addTodo now st))) = S (length (St.todos st))
    ∧ (∀ (i : nat) x, St.todos st !! i = Some x →
         St.todos (fst (addTodo now st)) !! i = Some x)
    ∧ St.todos (fst (addTodo now st)) !! length (St.todos st) = Some todo
    ∧ Todo.completed todo = false
    ∧ Todo.id todo = Number_toString now
    ∧ Todo.text todo = St.newTodo st
    ∧ Todo.priority todo = St.priority st
    ∧ Todo.category todo = St.category st
    ∧ Todo.dueDate todo = St.dueDate st
    ∧ Todo.notes todo = Some (St.notes st)
    ∧ (title <$> snd (addTodo now st)) = Some (js "Success").
Proof.
  intros Hne. eexists. rewrite addTodo_accepts by done.
  split; [done|]. split; [by rewrite length_app, Nat.add_1_r|].
  split; [intros i x Hx; by apply lookup_app_l_Some|].
  split; [by rewrite list_lookup_middle|].
  unfold addTodo. by rewrite decide_False.
Qed.

Lemma create_appends_task_witness :
  ∃ todo,
    St.todos (fst (addTodo 5 (run [SetNewTodo (js "a"); Submit 4; SetNewTodo (js "b")])))
      = St.todos (run [SetNewTodo (js "a"); Submit 4; SetNewTodo (js "b")]) ++ [todo]
    ∧ Todo.id todo = js "5" ∧ Todo.text todo = js "b".
Proof.
  destruct (create_appends_task 5
              (run [SetNewTodo (js "a"); Submit 4; SetNewTodo (js "b")]))
    as (todo & E & _ & _ & _ & _ & Hid & Htext & _).
  - vm_compute. discriminate.
  - exists todo. split; [exact E|]. split; [exact Hid | exact Htext].
Defined.

(** X2: a create leaves the text field blank, whether it was accepted or
    rejected, so submitting again at once is rejected and changes nothing:
    a double submit adds at most one task. An accepted create also clears the
    due date, the notes and the raw tags of the form and keeps its priority
    and category, the filter, the query and the sort key. *)
Theorem double_submit_adds_once (now1 now2 : Z) (st : St.t) :
  trim (St.newTodo (fst (addTodo now1 st))) = []
  ∧ fst (addTodo now2 (fst (addTodo now1 st))) = fst (addTodo now1 st)
  ∧ (title <$> snd (addTodo now2 (fst (addTodo now1 st)))) = Some (js "Error")
  ∧ (trim (St.newTodo st) ≠ [] →
       St.newTodo (fst (addTodo now1 st)) = []
       ∧ St.dueDate (fst (addTodo now1 st)) = None
       ∧ St.notes (fst (addTodo now1 st)) = []
       ∧ St.tags (fst (addTodo now1 st)) = []
       ∧ St.priority (fst (addTodo now1 st)) = St.priority st
       ∧ St.category (fst (addTodo now1 st)) = St.category st
       ∧ St.filter (fst (addTodo now1 st)) = St.filter st
       ∧ St.searchQuery (fst (addTodo now1 st)) = St.searchQuery st
       ∧ St.sortBy (fst (addTodo now1 st)) = St.sortBy st).
Proof.
  assert (trim (St.newTodo (fst (addTodo now1 st))) = []) as Hblank.
  { unfold addTodo. destruct (decide (trim (St.newTodo st) = [])); done. }
  split; [done|]. rewrite (addTodo_rejects now2) by done.
  split; [done|]. split; [done|].
  intros Hne. unfold addTodo. by rewrite decide_False.
Qed.

Lemma double_submit_adds_once_witness :
  length (St.todos (run [SetNewTodo (js "a"); Submit 4; Submit 5])) = 1%nat.
Proof.
  change (run [SetNewTodo (js "a"); Submit 4; Submit 5])
    with (fst (addTodo 5 (fst (addTodo 4 (run [SetNewTodo (js "a")]))))).
  rewrite (proj1 (proj2 (double_submit_adds_once 4 5 (run [SetNewTodo (js "a")])))).
  reflexivity.
Defined.

(** X3: the toast of a create tells what happened: it is the success toast
    exactly when the collection got one task longer, and the error toast
    exactly when the state is the one before. *)
Theorem create_toast_tells_outcome (now : Z) (st : St.t) :
  ((title <$> snd (addTodo now st)) = Some (js "Success")
   ↔ length (St.todos (fst (addTodo now st))) = S (length (St.todos st)))
  ∧ ((title <$> snd (addTodo now st)) = Some (js "Error")
     ↔ fst (addTodo now st) = st)
  ∧ ((title <$> snd (addTodo now st)) = Some (js "Success")
     ∨ (title <$> snd (addTodo now st)) = Some (js "Error")).
Proof.
  destruct (decide (trim (St.newTodo st) = [])) as [E|E].
  - rewrite addTodo_rejects by done. simpl. split; [|split; [done|by right]].
    split; [done | lia].
  - pose proof (addTodo_accepts now st E) as Hacc.
    assert ((title <$> snd (addTodo now st)) = Some (js "Success")) as Ht.
    { unfold addTodo. by rewrite decide_False. }
    rewrite Ht, Hacc, length_app, Nat.add_1_r.
    split; [done|]. split; [|by left]. split; [done|].
    intros Hst. rewrite Hst in Hacc. apply (f_equal length) in Hacc.
    rewrite length_app in Hacc. simpl in Hacc. lia.
Qed.

(** X4: deleting an id that no task has changes nothing and still raises the
    success toast. *)
Theorem delete_absent_reports_success (id : jsstring) (st : St.t) :
  (∀ x, x ∈ St.todos st → Todo.id x ≠ id) →
  deleteTodo id st
  = (st, Some {| title := js "Success";
                 description := js "Todo deleted successfully";
                 variant := None |}).
Proof.
  intros Hno. unfold deleteTodo. rewrite delete_absent by done.
  by rewrite set_todos_same.
Qed.

Lemma delete_absent_reports_success_witness :
  deleteTodo (js "9") initial
  = (initial, Some {| title := js "Success";
                      description := js "Todo deleted successfully";
                      variant := None |}).
Proof.
  apply (delete_absent_reports_success (js "9") initial).
  intros x Hx. by apply elem_of_nil in Hx.
Defined.

(** ** What the collection holds over time *)

Lemma withCompleted_flip c x : withCompleted c (flip x) = withCompleted c x.
Proof. done. Qed.

(** X5: no event edits, reorders or duplicates tasks. After any event the
    tasks, their [completed] put aside, are those of before with some of them
    left out, except that an accepted submit puts the new task at the end;
    and an event that only sets a cell of the form, the filter, the query or
    the sort key leaves the collection as it is. *)
Theorem events_keep_tasks (st : St.t) (e : Event) :
  (withCompleted false <$> St.todos (step st e)
     `sublist_of` withCompleted false <$> St.todos st
   ∨ ∃ now todo,
       e = Submit now ∧ trim (St.newTodo st) ≠ []
       ∧ Todo.completed todo = false
       ∧ St.todos (step st e) = St.todos st ++ [todo])
  ∧ ((∀ now, e ≠ Submit now) → (∀ id, e ≠ Toggle id) → (∀ id, e ≠ Delete id) →
     St.todos (step st e) = St.todos st).
Proof.
  split.
  - destruct e; simpl; auto.
    + destruct (decide (trim (St.newTodo st) = [])) as [E|E].
      * rewrite addTodo_rejects by done. auto.
      * right. eexists now, _. rewrite addTodo_accepts by done.
        split; [done|]. split; [done|]. split; [|reflexivity]. done.
    + left. rewrite <- list_fmap_compose.
      erewrite list_fmap_ext; [done|]. intros i x _. simpl. by case_decide.
    + left. apply fmap_sublist, sublist_filter.
  - intros Hs Ht Hd. destruct e; try done.
    + by destruct (Hs now).
    + by destruct (Ht id).
    + by destruct (Hd id).
Qed.

Lemma events_keep_tasks_witness :
  St.todos (step (run [SetNewTodo (js "a"); Submit 4]) (SetFilter (js "active")))
  = St.todos (run [SetNewTodo (js "a"); Submit 4]).
Proof.
  apply (proj2 (events_keep_tasks (run [SetNewTodo (js "a"); Submit 4])
                  (SetFilter (js "active")))); discriminate.
Defined.

Lemma ids_sublist_clock es :
  Todo.id <$> St.todos (run es) `sublist_of` Number_toString <$> submitTimes es.
Proof.
  induction es as [|e es IH] using rev_ind; [done|].
  rewrite run_snoc, submitTimes_snoc, fmap_app.
  destruct (ids_step (run es) e) as [Hsub|(now & -> & ->)].
  - etrans; [exact Hsub|]. etrans; [exact IH|]. by apply sublist_inserts_r.
  - by apply sublist_app.
Qed.

(** X6: the collection is in the order of creation: the ids of its tasks, in
    their order, are numerals of clock readings of submissions, in the order
    of these submissions, each submission used at most once. *)
Theorem ids_in_creation_order (es : list Event) :
  Todo.id <$> St.todos (run es) `sublist_of` Number_toString <$> submitTimes es
  ∧ (length (St.todos (run es)) ≤ length (submitTimes es))%nat
  ∧ (∀ x, x ∈ St.todos (run es) →
       ∃ now, now ∈ submitTimes es ∧ Todo.id x = Number_toString now).
Proof.
  split; [apply ids_sublist_clock|]. split.
  - pose proof (sublist_length _ _ (ids_sublist_clock es)) as H.
    by rewrite !length_fmap in H.
  - intros x Hx. apply ids_from_clock, list_elem_of_fmap. by exists x.
Qed.

(** X7: as long as no two submissions read the same clock value, no two tasks
    of the collection have the same id, and the id of a task is the numeral
    of one clock reading only. *)
Theorem ids_distinct_when_clock_distinct (es : list Event) :
  NoDup (submitTimes es) →
  NoDup (Todo.id <$> St.todos (run es))
  ∧ (∀ (i j : nat) x y,
       St.todos (run es) !! i = Some x → St.todos (run es) !! j = Some y →
       Todo.id x = Todo.id y → i = j)
  ∧ (∀ n m, Number_toString n = Number_toString m → n = m).
Proof.
  intros Hnd. pose proof (ids_unique_distinct_clock es Hnd) as Hids.
  split; [done|]. split; [|apply Number_toString_inj].
  intros i j x y Hx Hy E.
  apply (NoDup_lookup _ i j (Todo.id x) Hids).
  - by rewrite list_lookup_fmap, Hx.
  - by rewrite list_lookup_fmap, Hy, E.
Qed.

Lemma ids_distinct_when_clock_distinct_witness :
  NoDup (Todo.id <$> St.todos
           (run [SetNewTodo (js "a"); Submit 4; SetNewTodo (js "a"); Submit 5])).
Proof.
  apply (ids_distinct_when_clock_distinct
           [SetNewTodo (js "a"); Submit 4; SetNewTodo (js "a"); Submit 5]).
  vm_compute. repeat constructor.
  - intros H. apply elem_of_cons in H as [H|H]; [discriminate|]. by apply elem_of_nil in H.
  - intros H. by apply elem_of_nil in H.
Defined.

(** ** Toggling and deleting together *)

Lemma toggle_list_ids id (l : list Todo.t) :
  Todo.id <$> ((λ todo, if decide (Todo.id todo = id) then flip todo else todo) <$> l)
  = Todo.id <$> l.
Proof.
  rewrite <- list_fmap_compose. apply list_fmap_ext. intros i x _. simpl.
  by case_decide.
Qed.

Lemma toggle_list_filter i j (l : list Todo.t) :
  (λ todo, if decide (Todo.id todo = i) then flip todo else todo)
    <$> filter (λ todo, Todo.id todo ≠ j) l
  = filter (λ todo, Todo.id todo ≠ j)
      ((λ todo, if decide (Todo.id todo = i) then flip todo else todo) <$> l).
Proof.
  induction l as [|x l IH]; [done|].
  rewrite fmap_cons, !filter_cons.
  assert (Todo.id (if decide (Todo.id x = i) then flip x else x) = Todo.id x) as E
    by (by case_decide).
  rewrite E. destruct (decide (Todo.id x ≠ j)); [rewrite fmap_cons|]; by rewrite IH.
Qed.

Lemma toggle_list_comm i j (l : list Todo.t) :
  (λ todo, if decide (Todo.id todo = i) then flip todo else todo)
    <$> ((λ todo, if decide (Todo.id todo = j) then flip todo else todo) <$> l)
  = (λ todo, if decide (Todo.id todo = j) then flip todo else todo)
      <$> ((λ todo, if decide (Todo.id todo = i) then flip todo else todo) <$> l).
Proof.
  rewrite <- !list_fmap_compose. apply list_fmap_ext. intros k x _. simpl.
  destruct (decide (Todo.id x = i)), (decide (Todo.id x = j)); simpl;
    repeat case_decide; done.
Qed.

Lemma delete_list_comm i j (l : list Todo.t) :
  filter (λ todo, Todo.id todo ≠ i) (filter (λ todo, Todo.id todo ≠ j) l)
  = filter (λ todo, Todo.id todo ≠ j) (filter (λ todo, Todo.id todo ≠ i) l).
Proof.
  rewrite !list_filter_filter. apply list_filter_iff. intros x. tauto.
Qed.

(** X8: toggles and deletes can be done in any order: a toggle and a delete,
    two toggles, and two deletes, of any ids, give the same state either way
    round. *)
Theorem toggle_delete_commute (i j : jsstring) (st : St.t) :
  fst (toggleTodo i (fst (deleteTodo j st))) = fst (deleteTodo j (fst (toggleTodo i st)))
  ∧ fst (toggleTodo i (fst (toggleTodo j st))) = fst (toggleTodo j (fst (toggleTodo i st)))
  ∧ fst (deleteTodo i (fst (deleteTodo j st))) = fst (deleteTodo j (fst (deleteTodo i st))).
Proof.
  unfold toggleTodo, deleteTodo. simpl. rewrite !set_todos_twice.
  split; [|split]; f_equal.
  - apply toggle_list_filter.
  - apply toggle_list_comm.
  - apply delete_list_comm.
Qed.

(** X9: a delete is final for its id: deleting again, or toggling the id
    afterwards, changes nothing, and a toggle before the delete makes no
    difference. *)
Theorem delete_absorbs (id : jsstring) (st : St.t) :
  fst (deleteTodo id (fst (deleteTodo id st))) = fst (deleteTodo id st)
  ∧ fst (toggleTodo id (fst (deleteTodo id st))) = fst (deleteTodo id st)
  ∧ fst (deleteTodo id (fst (toggleTodo id st))) = fst (deleteTodo id st).
Proof.
  assert (∀ x, x ∈ filter (λ todo, Todo.id todo ≠ id) (St.todos st) → Todo.id x ≠ id)
    as Hgone by (by intros x [? _]%list_elem_of_filter).
  unfold toggleTodo, deleteTodo. simpl. rewrite !set_todos_twice.
  split; [|split]; f_equal.
  - by apply delete_absent.
  - by apply toggle_absent.
  - rewrite <- toggle_list_filter. by apply toggle_absent.
Qed.

Lemma delete_list_length id (l : list Todo.t) :
  (length (filter (λ todo, Todo.id todo ≠ id) l)
   + length (filter (λ todo, Todo.id todo = id) l) = length l)%nat.
Proof.
  induction l as [|x l IH]; [done|].
  rewrite !filter_cons. destruct (decide (Todo.id x = id)) as [E|E].
  - rewrite decide_False by (by intros H). simpl. lia.
  - rewrite decide_True by done. simpl. lia.
Qed.

Lemma NoDup_ids_one id (l : list Todo.t) x :
  NoDup (Todo.id <$> l) → x ∈ l → Todo.id x = id →
  filter (λ todo, Todo.id todo = id) l = [x].
Proof.
  induction l as [|y l IH]; intros Hnd Hx Hid; [by apply elem_of_nil in Hx|].
  rewrite fmap_cons in Hnd. apply NoDup_cons in Hnd as [Hy Hnd].
  rewrite filter_cons. apply elem_of_cons in Hx as [->|Hx].
  - rewrite decide_True by done. f_equal.
    apply elem_of_nil_inv. intros z [Hz Hin]%list_elem_of_filter.
    apply Hy. rewrite Hid, <- Hz. by apply list_elem_of_fmap_2.
  - rewrite decide_False; [by apply IH|].
    intros E. apply Hy. rewrite E, <- Hid. by apply list_elem_of_fmap_2.
Qed.

(** X10: with pairwise distinct ids and a task [x] that has the id, a delete
    takes out [x] and nothing else, so the collection is one shorter, and a
    toggle rewrites the one position of [x]. *)
Theorem delete_toggle_hit_one (id : jsstring) (st : St.t) (x : Todo.t) :
  NoDup (Todo.id <$> St.todos st) → x ∈ St.todos st → Todo.id x = id →
  length (St.todos st) = S (length (St.todos (fst (deleteTodo id st))))
  ∧ (x ∉ St.todos (fst (deleteTodo id st)))
  ∧ (∀ y, y ∈ St.todos st → y ≠ x → y ∈ St.todos (fst (deleteTodo id st)))
  ∧ (∃ i : nat, St.todos st !! i = Some x
       ∧ St.todos (fst (toggleTodo id st)) = <[i := flip x]> (St.todos st)).
Proof.
  intros Hnd Hx Hid. unfold deleteTodo, toggleTodo. simpl.
  pose proof (NoDup_ids_one id _ x Hnd Hx Hid) as Hone.
  split; [|split; [|split]].
  - pose proof (delete_list_length id (St.todos st)) as H. rewrite Hone in H.
    simpl in H. lia.
  - intros [Hne _]%list_elem_of_filter. by apply Hne.
  - intros y Hy Hyx. apply list_elem_of_filter. split; [|done].
    intros E. assert (y ∈ filter (λ todo, Todo.id todo = id) (St.todos st)) as Hin
      by (by apply list_elem_of_filter).
    rewrite Hone in Hin. by apply list_elem_of_singleton in Hin.
  - apply list_elem_of_lookup in Hx as [i Hi]. exists i. split; [done|].
    apply list_eq. intros k. rewrite list_lookup_fmap.
    destruct (decide (k = i)) as [->|Hk].
    + rewrite Hi, list_lookup_insert_eq by (by eapply lookup_lt_Some). simpl.
      by rewrite decide_True.
    + rewrite list_lookup_insert_ne by done.
      destruct (St.todos st !! k) as [y|] eqn:Hy; [|done]. simpl.
      rewrite decide_False; [done|]. intros E. apply Hk.
      apply (NoDup_lookup _ k i id Hnd).
      * rewrite list_lookup_fmap, Hy. simpl. by rewrite E.
      * rewrite list_lookup_fmap, Hi. simpl. by rewrite Hid.
Qed.

Lemma delete_toggle_hit_one_witness :
  length (St.todos (run [SetNewTodo (js "a"); Submit 4; SetNewTodo (js "b"); Submit 5]))
  = S (length (St.todos (fst (deleteTodo (js "4")
         (run [SetNewTodo (js "a"); Submit 4; SetNewTodo (js "b"); Submit 5]))))).
Proof.
  apply (delete_toggle_hit_one (js "4")
           (run [SetNewTodo (js "a"); Submit 4; SetNewTodo (js "b"); Submit 5])
           (Todo.mk (js "4") (js "a") false medium (js "personal") None (Some (js ""))
              (Some []))).
  - vm_compute. repeat constructor.
    + intros H. apply elem_of_cons in H as [H|H]; [discriminate|]. by apply elem_of_nil in H.
    + intros H. by apply elem_of_nil in H.
  - vm_compute. apply elem_of_cons. by left.
  - reflexivity.
Defined.

(** X11: a delete takes out as many tasks as have the id, all of them when
    several share it, so the collection never gets longer; a toggle keeps
    the ids, position by position. *)
Theorem delete_counts_matches (id : jsstring) (st : St.t) :
  (length (St.todos (fst (deleteTodo id st)))
   + length (filter (λ todo, Todo.id todo = id) (St.todos st))
   = length (St.todos st))%nat
  ∧ (length (St.todos (fst (deleteTodo id st))) ≤ length (St.todos st))%nat
  ∧ Todo.id <$> St.todos (fst (toggleTodo id st)) = Todo.id <$> St.todos st.
Proof.
  pose proof (delete_list_length id (St.todos st)) as H.
  split; [exact H|]. split; [unfold deleteTodo; simpl; lia | apply toggle_list_ids].
Qed.

(** ** The view as a rearrangement *)

Lemma sort_all_equal {A} (comparefn : A → A → Z) (l : list A) :
  (∀ a b, a ∈ l → b ∈ l → comparefn a b = 0%Z) → sort comparefn l = l.
Proof.
  induction l as [|x l IH]; intros H0; [done|].
  simpl. rewrite IH.
  - destruct l as [|y l]; [done|]. simpl.
    rewrite (H0 x y); [done | apply elem_of_cons; auto |].
    apply elem_of_cons. right. apply elem_of_cons. auto.
  - intros a b Ha Hb. apply H0; apply elem_of_cons; auto.
Qed.

Lemma sort_sorted_fix {A} (comparefn : A → A → Z) (key : A → Z) (l : list A) :
  by_key comparefn key l → StronglySorted (key_le key) l → sort comparefn l = l.
Proof. intros Hk Hs. symmetry. by apply (sort_unique comparefn key). Qed.

Lemma filter_all {A} (P : A → Prop) `{∀ x, Decision (P x)} (l : list A) :
  (∀ x, x ∈ l → P x) → filter P l = l.
Proof.
  induction l as [|x l IH]; intros HP; [done|].
  rewrite filter_cons_True by (apply HP, elem_of_cons; auto).
  f_equal. apply IH. intros y Hy. apply HP, elem_of_cons. auto.
Qed.

Lemma isSubstring_trans a b c : isSubstring a b → isSubstring b c → isSubstring a c.
Proof.
  intros (p1 & q1 & ->) (p2 & q2 & ->). exists (p2 ++ p1), (q1 ++ q2).
  by rewrite <- !app_assoc.
Qed.

Section ViewMore.
Variable toLowerCase : jsstring → jsstring.

Lemma filtered_sublist l f q : filtered toLowerCase l f q `sublist_of` l.
Proof. unfold filtered. etrans; apply sublist_filter. Qed.

Lemma view_perm l f q s :
  view toLowerCase l f q s ≡ₚ filtered toLowerCase l f q.
Proof. rewrite view_rendered. apply sort_perm. Qed.

Lemma elem_of_filtered l f q x :
  x ∈ filtered toLowerCase l f q ↔
  x ∈ l ∧ keepByFilter f x = true ∧ keepBySearch toLowerCase q x = true.
Proof.
  unfold filtered. rewrite !list_elem_of_filter, !Is_true_true. tauto.
Qed.

(** X12: the view only leaves tasks out and rearranges the rest: it is a
    permutation of the filtered array, which is the collection with tasks
    left out; so it is not longer than the collection, shows no task more
    often than the collection holds it, and shows no task twice when the
    collection holds none twice. *)
Theorem view_is_rearrangement (l : list Todo.t) (f q s : jsstring) :
  view toLowerCase l f q s ≡ₚ filtered toLowerCase l f q
  ∧ filtered toLowerCase l f q `sublist_of` l
  ∧ (length (view toLowerCase l f q s) ≤ length l)%nat
  ∧ (NoDup l → NoDup (view toLowerCase l f q s)).
Proof.
  pose proof (view_perm l f q s) as Hp.
  pose proof (filtered_sublist l f q) as Hs.
  split; [done|]. split; [done|]. split.
  - rewrite Hp. by apply sublist_length.
  - intros Hnd. rewrite Hp. by eapply sublist_NoDup.
Qed.

(** X13: the rows of the list are keyed by the ids of the tasks. As long as
    no two submissions read the same clock value, the keys of the rows of
    every view are pairwise distinct. *)
Theorem view_keys_distinct (es : list Event) (f q s : jsstring) :
  NoDup (submitTimes es) →
  NoDup (Todo.id <$> view toLowerCase (St.todos (run es)) f q s).
Proof.
  intros Hnd. rewrite (view_perm _ f q s).
  eapply sublist_NoDup; [by apply ids_unique_distinct_clock|].
  apply fmap_sublist, filtered_sublist.
Qed.

Lemma filtered_split l q :
  filtered toLowerCase l (js "all") q
  ≡ₚ filtered toLowerCase l (js "active") q
     ++ filtered toLowerCase l (js "completed") q.
Proof.
  unfold filtered. induction l as [|x l IH]; [done|].
  rewrite !(filter_cons (λ todo, Is_true (keepByFilter _ todo)) x).
  change (keepByFilter (js "all") x) with true.
  change (keepByFilter (js "active") x) with (negb (Todo.completed x)).
  change (keepByFilter (js "completed") x) with (Todo.completed x).
  destruct (Todo.completed x) eqn:Hc; simpl;
    rewrite !(filter_cons (λ todo, Is_true (keepBySearch toLowerCase q todo)) x);
    destruct (decide (keepBySearch toLowerCase q x)); rewrite IH; try done.
  apply Permutation_middle.
Qed.

(** X14: the [active] and the [completed] views share no task and together
    hold the tasks of the [all] view, each as often: the count under [all] is
    the sum of the two counts. *)
Theorem view_all_splits (l : list Todo.t) (q s : jsstring) :
  view toLowerCase l (js "all") q s
  ≡ₚ view toLowerCase l (js "active") q s ++ view toLowerCase l (js "completed") q s
  ∧ length (view toLowerCase l (js "all") q s)
    = (length (view toLowerCase l (js "active") q s)
       + length (view toLowerCase l (js "completed") q s))%nat
  ∧ (∀ x, x ∈ view toLowerCase l (js "active") q s →
          x ∉ view toLowerCase l (js "completed") q s).
Proof.
  assert (view toLowerCase l (js "all") q s
          ≡ₚ view toLowerCase l (js "active") q s
             ++ view toLowerCase l (js "completed") q s) as Hp.
  { rewrite (view_perm l (js "all")), (view_perm l (js "active")),
      (view_perm l (js "completed")). apply filtered_split. }
  split; [done|]. split.
  - by rewrite Hp, length_app.
  - intros x [_ [Ha _]]%elem_of_view [_ [Hc _]]%elem_of_view.
    change (negb (Todo.completed x) = true) in Ha.
    change (Todo.completed x = true) in Hc.
    rewrite Hc in Ha. done.
Qed.

(** X15: a filter other than [active] and [completed] shows what [all]
    shows, and a sort key other than [priority] and [date] leaves the
    filtered tasks in the order of the collection. *)
Theorem view_fallbacks (l : list Todo.t) (f q s : jsstring) :
  (f ≠ js "active" → f ≠ js "completed" →
   view toLowerCase l f q s = view toLowerCase l (js "all") q s)
  ∧ (s ≠ js "priority" → s ≠ js "date" →
     view toLowerCase l f q s = filtered toLowerCase l f q).
Proof.
  split.
  - intros Ha Hc. rewrite (view_rendered _ l f), (view_rendered _ l (js "all")).
    unfold rendered, filtered. do 2 f_equal.
    apply list_filter_iff. intros x. unfold keepByFilter.
    rewrite (decide_False (P := f = js "active")) by done.
    by rewrite (decide_False (P := f = js "completed")) by done.
  - intros Hp Hd. rewrite view_rendered. unfold rendered.
    apply sort_all_equal. intros a b _ _. unfold compareTodos.
    rewrite decide_False by done. by rewrite decide_False by done.
Qed.

(** X16: under the sort key [date], when no task of the collection has a due
    date, the view is the filtered tasks in the order of the collection. *)
Theorem view_date_without_dates (l : list Todo.t) (f q : jsstring) :
  (∀ x, x ∈ l → Todo.dueDate x = None) →
  view toLowerCase l f q (js "date") = filtered toLowerCase l f q.
Proof.
  intros Hnone. rewrite view_rendered. unfold rendered.
  apply sort_all_equal. intros a b [Ha _]%elem_of_filtered _.
  unfold compareTodos. rewrite decide_False by done. rewrite decide_True by done.
  by rewrite (Hnone a Ha).
Qed.
End ViewMore.

Lemma view_date_without_dates_witness :
  view asciiLower
    [Todo.mk (js "1") (js "b") false low (js "personal") None None None;
     Todo.mk (js "2") (js "a") true high (js "personal") None None None]
    (js "all") (js "") (js "date")
  = filtered asciiLower
      [Todo.mk (js "1") (js "b") false low (js "personal") None None None;
       Todo.mk (js "2") (js "a") true high (js "personal") None None None]
      (js "all") (js "").
Proof.
  apply (view_date_without_dates asciiLower).
  intros x Hx. repeat (apply elem_of_cons in Hx as [->|Hx]; [reflexivity|]).
  by apply elem_of_nil in Hx.
Defined.

Lemma view_keys_distinct_witness :
  NoDup (Todo.id <$> view asciiLower
           (St.todos (run [SetNewTodo (js "a"); Submit 4; SetNewTodo (js "a"); Submit 5]))
           (js "all") (js "") (js "priority")).
Proof.
  apply (view_keys_distinct asciiLower
           [SetNewTodo (js "a"); Submit 4; SetNewTodo (js "a"); Submit 5]).
  vm_compute. repeat constructor.
  - intros H. apply elem_of_cons in H as [H|H]; [discriminate|]. by apply elem_of_nil in H.
  - intros H. by apply elem_of_nil in H.
Defined.

Lemma view_fallbacks_witness :
  view asciiLower
    [Todo.mk (js "1") (js "a") false low (js "personal") None None None;
     Todo.mk (js "2") (js "a") true high (js "personal") None None None]
    (js "all") (js "a") (js "")
  = filtered asciiLower
      [Todo.mk (js "1") (js "a") false low (js "personal") None None None;
       Todo.mk (js "2") (js "a") true high (js "personal") None None None]
      (js "all") (js "a").
Proof.
  apply (proj2 (view_fallbacks asciiLower _ _ _ _)); discriminate.
Defined.

(** ** Sorting and searching *)

Section ViewOrder.
Variable toLowerCase : jsstring → jsstring.

Lemma filter_dueDate_key (d : Z) (l : list Todo.t) :
  (∀ x, x ∈ l → is_Some (Todo.dueDate x)) →
  filter (λ x, Todo.dueDate x = Some d) l
  = filter (λ x, default 0%Z (Todo.dueDate x) = d) l.
Proof.
  induction l as [|x l IH]; intros Hall; [done|].
  rewrite !filter_cons, IH by (intros y Hy; apply Hall, elem_of_cons; auto).
  destruct (Hall x) as [dx Hx]; [apply elem_of_cons; auto|].
  rewrite Hx. simpl. destruct (decide (dx = d)) as [->|Hne].
  - by rewrite decide_True.
  - rewrite decide_False; [done | congruence].
Qed.

(** X17: under the sort key [date], when every task of the collection has a
    due date, tasks with the same due date keep the order they have in the
    collection; and the view is the only rearrangement of the filtered tasks
    that is ascending in due date and keeps that order. *)
Theorem view_date_stable (l : list Todo.t) (f q : jsstring) :
  (∀ x, x ∈ l → is_Some (Todo.dueDate x)) →
  (∀ d, filter (λ x, Todo.dueDate x = Some d) (view toLowerCase l f q (js "date"))
        = filter (λ x, Todo.dueDate x = Some d) (filtered toLowerCase l f q))
  ∧ (∀ out,
       out ≡ₚ filtered toLowerCase l f q →
       StronglySorted dueDate_le out →
       (∀ d, filter (λ x, Todo.dueDate x = Some d) out
             = filter (λ x, Todo.dueDate x = Some d) (filtered toLowerCase l f q)) →
       out = view toLowerCase l f q (js "date")).
Proof.
  intros Hall. rewrite view_rendered. unfold rendered.
  set (F := filtered toLowerCase l f q).
  assert (∀ x, x ∈ F → is_Some (Todo.dueDate x)) as HF.
  { intros x [Hx _]%elem_of_filtered. by apply Hall. }
  pose proof (compare_date_by_key F HF) as Hk.
  split.
  - intros d. rewrite !filter_dueDate_key; [by apply sort_stable | done |].
    intros x Hx. apply HF. by rewrite elem_of_sort in Hx.
  - intros out Hp Hs Hstable.
    assert (∀ x, x ∈ out → is_Some (Todo.dueDate x)) as Hout.
    { intros x Hx. apply HF. by rewrite <- Hp. }
    apply (sort_unique _ (λ x, default 0%Z (Todo.dueDate x))); [done| |].
    + eapply (StronglySorted_strengthen _ _ (λ _, True)); [|exact Hs|].
      * intros a b _ _ (da & db & Ha & Hb & Hab). unfold key_le.
        by rewrite Ha, Hb.
      * by apply Forall_forall.
    + intros d. rewrite <- !filter_dueDate_key by done. apply Hstable.
Qed.

(** X18: showing a view again changes nothing: the tasks of a view all pass
    its filter and its search, and the view under [priority] of a view under
    [priority] is that view. *)
Theorem view_again (l : list Todo.t) (f q s : jsstring) :
  filtered toLowerCase (view toLowerCase l f q s) f q = view toLowerCase l f q s
  ∧ view toLowerCase (view toLowerCase l f q (js "priority")) f q (js "priority")
    = view toLowerCase l f q (js "priority").
Proof.
  assert (∀ s', filtered toLowerCase (view toLowerCase l f q s') f q
                = view toLowerCase l f q s') as Hfix.
  { intros s'. unfold filtered. rewrite !filter_all; [done| |].
    - intros x (_ & Hf & _)%elem_of_view. by apply Is_true_true.
    - intros x [_ Hx]%list_elem_of_filter.
      apply elem_of_view in Hx as (_ & _ & Hq). by apply Is_true_true. }
  split; [apply Hfix|].
  rewrite (view_rendered _ (view toLowerCase l f q (js "priority"))).
  unfold rendered. rewrite Hfix.
  apply (sort_sorted_fix _ (λ x, priorityOrder (Todo.priority x))).
  - apply compare_priority_by_key.
  - rewrite view_rendered. apply sort_sorted, compare_priority_by_key.
Qed.

(** X19: a longer query never finds more: when the lower-cased query [q1] is
    a substring of the lower-cased query [q2], every task in the view for
    [q2] is in the view for [q1]. *)
Theorem search_narrows (l : list Todo.t) (f q1 q2 s : jsstring) :
  isSubstring (toLowerCase q1) (toLowerCase q2) →
  ∀ x, x ∈ view toLowerCase l f q2 s → x ∈ view toLowerCase l f q1 s.
Proof.
  intros Hsub x (Hx & Hf & Hq)%elem_of_view. apply elem_of_view.
  split; [done|]. split; [done|].
  unfold keepBySearch in *. apply orb_true_iff in Hq. apply orb_true_iff.
  destruct Hq as [Hq|Hq].
  - left. apply includes_spec. apply includes_spec in Hq.
    by eapply isSubstring_trans.
  - right. destruct (Todo.tags x) as [ts|]; [|done].
    apply existsb_exists in Hq as (tag & Hin & Hq). apply existsb_exists.
    exists tag. split; [done|]. apply includes_spec. apply includes_spec in Hq.
    by eapply isSubstring_trans.
Qed.

(** X20: a task is found by its own text and by each of its own tags: a task
    of the collection that passes the completion filter is in the view whose
    query is its text, and in the view whose query is one of its tags. *)
Theorem search_finds_own (l : list Todo.t) (f s : jsstring) (x : Todo.t) :
  x ∈ l → keepByFilter f x = true →
  x ∈ view toLowerCase l f (Todo.text x) s
  ∧ (∀ ts tag, Todo.tags x = Some ts → tag ∈ ts → x ∈ view toLowerCase l f tag s).
Proof.
  intros Hx Hf.
  assert (∀ t, includes (toLowerCase t) (toLowerCase t) = true) as Hself.
  { intros t. apply includes_spec. exists [], []. by rewrite app_nil_r. }
  split.
  - apply elem_of_view. split; [done|]. split; [done|].
    unfold keepBySearch. by rewrite Hself.
  - intros ts tag Hts Hin. apply elem_of_view. split; [done|]. split; [done|].
    unfold keepBySearch. rewrite Hts. apply orb_true_iff. right.
    apply existsb_exists. exists tag. split; [by apply list_elem_of_In | apply Hself].
Qed.

(** X21: with a case mapping that maps the empty string to itself, the empty
    query leaves no task out: the view is then the tasks that pass the
    completion filter, and under [all] a permutation of the collection. *)
Theorem empty_query_keeps_all (l : list Todo.t) (s : jsstring) :
  toLowerCase [] = [] →
  (∀ f x, x ∈ view toLowerCase l f [] s ↔ x ∈ l ∧ keepByFilter f x = true)
  ∧ view toLowerCase l (js "all") [] s ≡ₚ l.
Proof.
  intros Hnil.
  assert (∀ x, keepBySearch toLowerCase [] x = true) as Hq.
  { intros x. unfold keepBySearch. rewrite Hnil.
    by destruct (toLowerCase (Todo.text x)). }
  split.
  - intros f x. rewrite elem_of_view. specialize (Hq x). tauto.
  - rewrite view_perm. unfold filtered. rewrite !filter_all; [done| |].
    + by intros x _.
    + intros x _. apply Is_true_true, Hq.
Qed.
(** Where the comparator is consistent the view is what every engine
    renders: any result that ECMAScript allows for sorting the filtered
    array, ascending in the key and stable, is the view. This covers the sort
    key [priority], the sort key [date] when every task or no task of the
    collection has a due date, and every other sort key. *)
Lemma view_engine_independent (l : list Todo.t) (f q s : jsstring) (out : list Todo.t) :
  (sortedStable (λ x, priorityOrder (Todo.priority x)) (filtered toLowerCase l f q) out →
   out = view toLowerCase l f q (js "priority"))
  ∧ ((∀ x, x ∈ l → is_Some (Todo.dueDate x)) →
     sortedStable (λ x, default 0%Z (Todo.dueDate x)) (filtered toLowerCase l f q) out →
     out = view toLowerCase l f q (js "date"))
  ∧ ((∀ x, x ∈ l → Todo.dueDate x = None) →
     sortedStable (λ _, 0%Z) (filtered toLowerCase l f q) out →
     out = view toLowerCase l f q (js "date"))
  ∧ (s ≠ js "priority" → s ≠ js "date" →
     sortedStable (λ _, 0%Z) (filtered toLowerCase l f q) out →
     out = view toLowerCase l f q s).
Proof.
  split; [|split; [|split]].
  - intros [Hs Hst]. rewrite view_rendered.
    by apply (sort_unique _ (λ x, priorityOrder (Todo.priority x)));
      [apply compare_priority_by_key|..].
  - intros Hall [Hs Hst]. rewrite view_rendered.
    apply (sort_unique _ (λ x, default 0%Z (Todo.dueDate x))); [|done..].
    apply compare_date_by_key. intros x [Hx _]%elem_of_filtered. by apply Hall.
  - intros Hnone [Hs Hst]. rewrite view_rendered.
    apply (sort_unique _ (λ _, 0%Z)); [|done..].
    intros a b [Ha _]%elem_of_filtered _. unfold compareTodos.
    rewrite decide_False by done. rewrite decide_True by done.
    by rewrite (Hnone a Ha).
  - intros Hp Hd [Hs Hst]. rewrite view_rendered.
    apply (sort_unique _ (λ _, 0%Z)); [|done..].
    intros a b _ _. unfold compareTodos.
    rewrite decide_False by done. by rewrite decide_False by done.
Qed.
End ViewOrder.

Lemma view_date_stable_witness :
  filter (λ x, Todo.dueDate x = Some 30%Z)
    (view asciiLower
       [Todo.mk (js "1") (js "pay rent") false low (js "personal") (Some 30%Z) None None;
        Todo.mk (js "2") (js "buy milk") true high (js "shopping") (Some 10%Z) None None;
        Todo.mk (js "3") (js "call home") false medium (js "personal") (Some 30%Z) None None]
       (js "all") (js "") (js "date"))
  = filter (λ x, Todo.dueDate x = Some 30%Z)
      (filtered asciiLower
         [Todo.mk (js "1") (js "pay rent") false low (js "personal") (Some 30%Z) None None;
          Todo.mk (js "2") (js "buy milk") true high (js "shopping") (Some 10%Z) None None;
          Todo.mk (js "3") (js "call home") false medium (js "personal") (Some 30%Z) None None]
         (js "all") (js "")).
Proof.
  refine (proj1 (view_date_stable asciiLower _ (js "all") (js "") _) 30%Z).
  intros x Hx. repeat (apply elem_of_cons in Hx as [->|Hx]; [by eexists|]).
  by apply elem_of_nil in Hx.
Defined.

Lemma search_narrows_witness :
  Todo.mk (js "1") (js "Pay rent") false low (js "personal") None None None
  ∈ view asciiLower
      [Todo.mk (js "1") (js "Pay rent") false low (js "personal") None None None]
      (js "all") (js "RE") (js "date").
Proof.
  apply (search_narrows asciiLower _ (js "all") (js "RE") (js "rent") (js "date")).
  - exists [], (js "nt"). vm_compute. reflexivity.
  - vm_compute. apply elem_of_cons. by left.
Defined.

Lemma search_finds_own_witness :
  Todo.mk (js "1") (js "Pay rent") false low (js "personal") None None None
  ∈ view asciiLower
      [Todo.mk (js "1") (js "Pay rent") false low (js "personal") None None None]
      (js "active") (js "Pay rent") (js "date").
Proof.
  apply (search_finds_own asciiLower
           [Todo.mk (js "1") (js "Pay rent") false low (js "personal") None None None]
           (js "active") (js "date")
           (Todo.mk (js "1") (js "Pay rent") false low (js "personal") None None None)).
  - apply elem_of_cons. by left.
  - reflexivity.
Defined.

Lemma empty_query_keeps_all_witness :
  view asciiLower
    [Todo.mk (js "1") (js "Pay rent") false low (js "personal") None None None;
     Todo.mk (js "2") (js "Buy milk") true high (js "personal") None None None]
    (js "all") [] (js "priority")
  ≡ₚ [Todo.mk (js "1") (js "Pay rent") false low (js "personal") None None None;
      Todo.mk (js "2") (js "Buy milk") true high (js "personal") None None None].
Proof.
  apply (empty_query_keeps_all asciiLower). reflexivity.
Defined.

(** ** Tags *)

Lemma trimStart_id s :
  (∀ c s', s = c :: s' → isWhiteSpace c = false) → trimStart s = s.
Proof. destruct s as [|c s]; [done|]. intros H. simpl. by rewrite (H c s eq_refl). Qed.

Lemma trimEnd_prefix s : ∃ ws, s = trimEnd s ++ ws ∧ forallb isWhiteSpace ws = true.
Proof.
  unfold trimEnd. destruct (trimStart_suffix (rev s)) as [ws [E W]].
  exists (rev ws). split; [|by rewrite forallb_rev_white].
  by rewrite <- rev_app_distr, <- E, rev_involutive.
Qed.

Lemma trim_decompose s :
  ∃ ws1 ws2, s = ws1 ++ trim s ++ ws2
    ∧ forallb isWhiteSpace ws1 = true ∧ forallb isWhiteSpace ws2 = true.
Proof.
  destruct (trimStart_suffix s) as [ws1 [E1 W1]].
  destruct (trimEnd_prefix (trimStart s)) as [ws2 [E2 W2]].
  exists ws1, ws2. unfold trim. by rewrite <- E2.
Qed.

Lemma trim_head s c r : trim s = c :: r → isWhiteSpace c = false.
Proof.
  unfold trim. destruct (trimEnd_prefix (trimStart s)) as [ws [E _]].
  intros H. rewrite H in E. simpl in E. by eapply trimStart_head.
Qed.

Lemma trim_last s r c : trim s = r ++ [c] → isWhiteSpace c = false.
Proof.
  unfold trim, trimEnd. intros H. apply (f_equal (@rev N)) in H.
  rewrite rev_involutive, rev_app_distr in H. simpl in H. by eapply trimStart_head.
Qed.

Lemma trim_idempotent s : trim (trim s) = trim s.
Proof.
  set (u := trim s). unfold trim at 1.
  rewrite (trimStart_id u) by (intros c r E; by eapply trim_head).
  unfold trimEnd. rewrite (trimStart_id (rev u)); [apply rev_involutive|].
  intros c r E. apply (f_equal (@rev N)) in E. rewrite rev_involutive in E.
  simpl in E. by eapply trim_last.
Qed.

Lemma isSubstring_elem t s c : isSubstring t s → c ∈ t → c ∈ s.
Proof. intros (pre & post & ->) Hc. rewrite !elem_of_app. auto. Qed.

Lemma trim_substring s : isSubstring (trim s) s.
Proof. destruct (trim_decompose s) as (ws1 & ws2 & E & _). by exists ws1, ws2. Qed.

Lemma join_piece_substring sep pieces p :
  p ∈ pieces → isSubstring p (join sep pieces).
Proof.
  induction pieces as [|q rest IH]; [by intros ?%elem_of_nil|].
  intros Hp. destruct rest as [|r rest].
  - apply list_elem_of_singleton in Hp as ->. exists [], []. by rewrite app_nil_r.
  - rewrite join_cons_cons. apply elem_of_cons in Hp as [->|Hp].
    + by exists [], (sep :: join sep (r :: rest)).
    + destruct (IH Hp) as (pre & post & E). exists (q ++ sep :: pre), post.
      rewrite E. by rewrite <- app_assoc.
Qed.

Lemma split_length sep s :
  length (split sep s) = S (length (filter (λ c, c = sep) s)).
Proof.
  induction s as [|c s IH]; [done|]. simpl. rewrite filter_cons.
  destruct (N.eqb_spec c sep) as [->|Hne].
  - rewrite decide_True by done. simpl. by rewrite IH.
  - rewrite decide_False by done. pose proof (split_nonempty sep s).
    destruct (split sep s); [done|]. by rewrite <- IH.
Qed.

Lemma split_blank s :
  Forall (λ piece, forallb isWhiteSpace piece = true) (split 44 s)
  ↔ forallb isBlankOrComma s = true.
Proof.
  induction s as [|c s IH].
  - split; [done|]. intros _. by repeat constructor.
  - cbn [split forallb]. rewrite andb_true_iff, <- IH. unfold isBlankOrComma.
    destruct (N.eqb_spec c 44) as [->|Hne].
    + rewrite Forall_cons, orb_true_r. cbn [forallb]. tauto.
    + rewrite orb_false_r. pose proof (split_nonempty 44 s).
      destruct (split 44 s) as [|p ps]; [done|].
      rewrite !Forall_cons. cbn [forallb]. rewrite andb_true_iff. tauto.
Qed.

Lemma filter_nil_Forall {A} (P : A → Prop) `{∀ x, Decision (P x)} (l : list A) :
  filter P l = [] ↔ Forall (λ x, ¬ P x) l.
Proof.
  induction l as [|x l IH]; [by split; [constructor|]|].
  rewrite filter_cons, Forall_cons. destruct (decide (P x)); [|tauto].
  split; [done | by intros [? _]].
Qed.

(** X22: parsing undoes joining: for tags that are non-empty, have no white
    space at either end and hold no comma, the tags parsed from their
    comma-separated list are these tags, in their order. *)
Theorem parseTags_of_join (ts : list jsstring) :
  Forall (λ tag, tag ≠ [] ∧ trim tag = tag ∧ (44 ∉ tag)) ts →
  parseTags (join 44 ts) = ts.
Proof.
  intros Hts. destruct (decide (ts = [])) as [->|Hne]; [done|].
  unfold parseTags. rewrite <- (split_unique 44 (join 44 ts) ts); [|done|done|].
  - assert (trim <$> ts = ts) as ->.
    { rewrite <- (list_fmap_id ts) at 2. apply list_fmap_ext.
      intros i t Ht. apply (proj1 (Forall_forall _ _) Hts).
      by eapply list_elem_of_lookup_2. }
    apply filter_all. intros t Ht. by apply (proj1 (Forall_forall _ _) Hts).
  - eapply Forall_impl; [exact Hts|]. by intros t (_ & _ & ?).
Qed.

Lemma parseTags_of_join_witness :
  parseTags (join 44 [js "home"; js "very urgent"]) = [js "home"; js "very urgent"].
Proof.
  apply (parseTags_of_join [js "home"; js "very urgent"]).
  repeat constructor; try discriminate; try reflexivity;
    vm_compute; intros H;
    repeat (apply elem_of_cons in H as [H|H]; [discriminate|]);
    by apply elem_of_nil in H.
Defined.

(** X23: a raw tags input gives no tag exactly when it holds nothing but
    white space and commas; the empty input is one such. *)
Theorem parseTags_nil_iff (raw : jsstring) :
  parseTags raw = [] ↔ forallb isBlankOrComma raw = true.
Proof.
  unfold parseTags. rewrite filter_nil_Forall, Forall_fmap, <- split_blank.
  apply Forall_proper; [|done]. intros p. simpl.
  rewrite <- trim_nil_iff. destruct (decide (trim p = [])); tauto.
Qed.

Lemma parseTags_clean_tag raw tag :
  tag ∈ parseTags raw →
  tag ≠ [] ∧ trim tag = tag ∧ (44 ∉ tag) ∧ isSubstring tag raw.
Proof.
  intros [Hne Hin]%list_elem_of_filter.
  apply list_elem_of_fmap in Hin as (p & -> & Hp).
  split; [done|]. split; [apply trim_idempotent|]. split.
  - intros Hc. apply (isSubstring_elem _ _ _ (trim_substring p)) in Hc.
    by apply (proj1 (Forall_forall _ _) (split_no_sep 44 raw) p Hp).
  - eapply isSubstring_trans; [apply trim_substring|].
    rewrite <- (join_split 44 raw). by apply join_piece_substring.
Qed.

(** X24: every tag parsed from a raw input is non-empty, has no white space
    at either end, so that trimming it again changes nothing, holds no comma
    and is a part of the raw input; and there is at most one tag more than
    the input has commas. *)
Theorem parseTags_tags_clean (raw : jsstring) :
  (∀ tag, tag ∈ parseTags raw →
     tag ≠ [] ∧ trim tag = tag ∧ (44 ∉ tag) ∧ isSubstring tag raw
     ∧ (∀ c r, tag = c :: r → isWhiteSpace c = false)
     ∧ (∀ r c, tag = r ++ [c] → isWhiteSpace c = false))
  ∧ (length (parseTags raw) ≤ S (length (filter (λ c : N, c = 44%N) raw)))%nat.
Proof.
  split.
  - intros tag Hin. destruct (parseTags_clean_tag raw tag Hin) as (Hne & Ht & Hc & Hs).
    split; [done|]. split; [done|]. split; [done|]. split; [done|]. split.
    + intros c r E. apply (trim_head tag c r). by rewrite Ht.
    + intros r c E. apply (trim_last tag r c). by rewrite Ht.
  - unfold parseTags. rewrite <- split_length.
    etrans; [apply length_filter|]. by rewrite length_fmap.
Qed.

(** X25: a row shows the notes and tags of its task when the notes are
    non-empty or there is a tag. For a newly created task they are hidden
    exactly when the notes field was empty and the tags field held nothing
    but white space and commas. *)
Theorem created_row_details (now : Z) (st : St.t) :
  trim (St.newTodo st) ≠ [] →
  ∃ todo,
    St.todos (fst (addTodo now st)) = St.todos st ++ [todo]
    ∧ (showsDetails todo = false
       ↔ St.notes st = [] ∧ forallb isBlankOrComma (St.tags st) = true).
Proof.
  intros Hne. eexists. split; [by apply addTodo_accepts|].
  unfold showsDetails. simpl. rewrite <- parseTags_nil_iff.
  destruct (St.notes st) as [|c notes]; [|by split; [|intros [? _]]].
  destruct (parseTags (St.tags st)) as [|t ts].
  - by split.
  - split; [|by intros [_ ?]]. intros H. apply bool_decide_eq_false in H.
    simpl in H. lia.
Qed.

Lemma created_row_details_witness :
  ∃ todo,
    St.todos (fst (addTodo 5 (run [SetNewTodo (js "a"); SetTags (js " , ,")])))
      = St.todos (run [SetNewTodo (js "a"); SetTags (js " , ,")]) ++ [todo]
    ∧ (showsDetails todo = false
       ↔ St.notes (run [SetNewTodo (js "a"); SetTags (js " , ,")]) = []
         ∧ forallb isBlankOrComma
             (St.tags (run [SetNewTodo (js "a"); SetTags (js " , ,")])) = true).
Proof.
  apply (created_row_details 5 (run [SetNewTodo (js "a"); SetTags (js " , ,")])).
  vm_compute. discriminate.
Defined.

(** X26: the colour class of the priority badge tells the priority: the
    three priorities get three different classes, every string gets one of
    these three, and a string that is no priority gets the class of
    [medium]. *)
Theorem priority_colour_tells_priority :
  (∀ p1 p2,
     getPriorityColor (priorityName p1) = getPriorityColor (priorityName p2) → p1 = p2)
  ∧ (∀ priority,
       getPriorityColor priority
       ∈ [js "bg-todo-low"; js "bg-todo-medium"; js "bg-todo-high"])
  ∧ (∀ priority,
       (∀ p, priority ≠ priorityName p) →
       getPriorityColor priority = getPriorityColor (priorityName medium)).
Proof.
  split; [|split].
  - by intros [] [].
  - intros priority. unfold getPriorityColor. rewrite !elem_of_cons.
    repeat case_decide; auto.
  - intros priority Hno. unfold getPriorityColor.
    rewrite decide_False by apply (Hno low).
    rewrite decide_False by apply (Hno medium).
    rewrite decide_False by apply (Hno high). done.
Qed.

(** ** Evaluating the view again *)

Section ViewStore.
Variable toLowerCase : jsstring → jsstring.

(** X27: evaluating the view a second time, in the store the first
    evaluation left, gives another new array with the same tasks in the same
    order; the array of the first evaluation and the array of the collection
    are then still what they were. *)
Theorem view_twice (h : store) (todos : loc) (l : list Todo.t) (f q s : jsstring) :
  h !! todos = Some l →
  ∃ r1 h1 r2 h2,
    sortedAndFilteredTodos toLowerCase todos f q s h = Some (r1, h1)
    ∧ sortedAndFilteredTodos toLowerCase todos f q s h1 = Some (r2, h2)
    ∧ r1 ≠ r2 ∧ r1 ≠ todos ∧ r2 ≠ todos
    ∧ h2 !! r1 = Some (view toLowerCase l f q s)
    ∧ h2 !! r2 = Some (view toLowerCase l f q s)
    ∧ h2 !! todos = Some l.
Proof.
  intros Ht.
  destruct (sortedAndFilteredTodos_run toLowerCase h todos l f q s Ht)
    as (r1 & h1 & Hrun1 & Hr1 & Hfresh1 & Hframe1).
  assert (h1 !! todos = Some l) as Ht1 by (rewrite Hframe1; [done | by rewrite Ht]).
  destruct (sortedAndFilteredTodos_run toLowerCase h1 todos l f q s Ht1)
    as (r2 & h2 & Hrun2 & Hr2 & Hfresh2 & Hframe2).
  exists r1, h1, r2, h2. rewrite view_rendered.
  split; [done|]. split; [done|].
  split; [intros ->; congruence|]. split; [intros ->; congruence|].
  split; [intros ->; congruence|].
  split; [rewrite Hframe2; [done | by rewrite Hr1]|].
  split; [done|]. rewrite Hframe2; [done | by rewrite Ht1].
Qed.
End ViewStore.

Lemma view_twice_witness :
  ∃ r1 h1 r2 h2,
    sortedAndFilteredTodos asciiLower 1%positive (js "all") (js "") (js "priority")
      {[ 1%positive :=
           [Todo.mk (js "1") (js "pay rent") false low (js "personal") None None None;
            Todo.mk (js "2") (js "buy milk") false high (js "shopping") None None None] ]}
    = Some (r1, h1)
    ∧ sortedAndFilteredTodos asciiLower 1%positive (js "all") (js "") (js "priority") h1
      = Some (r2, h2)
    ∧ r1 ≠ r2 ∧ r1 ≠ 1%positive ∧ r2 ≠ 1%positive
    ∧ h2 !! r1
      = Some (view asciiLower
                [Todo.mk (js "1") (js "pay rent") false low (js "personal") None None None;
                 Todo.mk (js "2") (js "buy milk") false high (js "shopping") None None None]
                (js "all") (js "") (js "priority"))
    ∧ h2 !! r2
      = Some (view asciiLower
                [Todo.mk (js "1") (js "pay rent") false low (js "personal") None None None;
                 Todo.mk (js "2") (js "buy milk") false high (js "shopping") None None None]
                (js "all") (js "") (js "priority"))
    ∧ h2 !! 1%positive
      = Some [Todo.mk (js "1") (js "pay rent") false low (js "personal") None None None;
              Todo.mk (js "2") (js "buy milk") false high (js "shopping") None None None].
Proof.
  apply (view_twice asciiLower). vm_compute. reflexivity.
Defined.

(** ** Tasks of the states the component reaches *)

(** X28: every task of every state the component reaches has its notes and
    its tags present, and each of its tags is non-empty, without white space
    at either end and without a comma. *)
Theorem reachable_tasks_wellformed (es : list Event) (x : Todo.t) :
  x ∈ St.todos (run es) →
  is_Some (Todo.notes x)
  ∧ ∃ ts, Todo.tags x = Some ts
      ∧ Forall (λ tag, tag ≠ [] ∧ trim tag = tag ∧ (44 ∉ tag)) ts.
Proof.
  revert es x.
  apply (todos_invariant
           (λ x, is_Some (Todo.notes x)
                 ∧ ∃ ts, Todo.tags x = Some ts
                     ∧ Forall (λ tag, tag ≠ [] ∧ trim tag = tag ∧ (44 ∉ tag)) ts)).
  - by intros y Hy.
  - intros now st _. simpl. split; [done|]. eexists. split; [done|].
    apply Forall_forall. intros tag Hin.
    destruct (parseTags_clean_tag _ _ Hin) as (? & ? & ? & _). done.
Qed.

Lemma reachable_tasks_wellformed_witness :
  is_Some (Todo.notes
             (Todo.mk (js "4") (js "a") false medium (js "personal") None (Some (js ""))
                (Some [js "x"; js "y z"])))
  ∧ ∃ ts,
      Todo.tags
        (Todo.mk (js "4") (js "a") false medium (js "personal") None (Some (js ""))
           (Some [js "x"; js "y z"])) = Some ts
      ∧ Forall (λ tag, tag ≠ [] ∧ trim tag = tag ∧ (44 ∉ tag)) ts.
Proof.
  apply (reachable_tasks_wellformed
           [SetNewTodo (js "a"); SetTags (js " x ,, y z"); Submit 4]).
  vm_compute. apply elem_of_cons. by left.
Defined.

Section ViewAfter.
Variable toLowerCase : jsstring → jsstring.

(** X29: ticking a task moves it across: a task shown under [active] is,
    after a toggle of its id, shown completed under [completed] for the same
    query, and a task shown under [completed] is then shown uncompleted
    under [active]. *)
Theorem toggle_moves_across (st : St.t) (q s : jsstring) (x : Todo.t) :
  (x ∈ view toLowerCase (St.todos st) (js "active") q s →
   flip x ∈ view toLowerCase (St.todos (fst (toggleTodo (Todo.id x) st)))
              (js "completed") q s
   ∧ Todo.completed (flip x) = true)
  ∧ (x ∈ view toLowerCase (St.todos st) (js "completed") q s →
     flip x ∈ view toLowerCase (St.todos (fst (toggleTodo (Todo.id x) st)))
                (js "active") q s
     ∧ Todo.completed (flip x) = false).
Proof.
  assert (x ∈ St.todos st → flip x ∈ St.todos (fst (toggleTodo (Todo.id x) st))) as Hin.
  { intros Hx. unfold toggleTodo. simpl. apply list_elem_of_fmap. exists x.
    split; [|done]. by rewrite decide_True. }
  split; intros (Hx & Hf & Hq)%elem_of_view.
  - change (negb (Todo.completed x) = true) in Hf. split; [|done].
    apply elem_of_view. split; [by apply Hin|]. split; [done|]. done.
  - change (Todo.completed x = true) in Hf. split; [|by simpl; rewrite Hf].
    apply elem_of_view. split; [by apply Hin|]. split; [|done].
    change (negb (negb (Todo.completed x)) = true). by rewrite Hf.
Qed.

(** X30: a newly created task is uncompleted: it is never in a [completed]
    view, and it is in the [active] and the [all] view of every query that
    matches it, such as its own text. *)
Theorem created_task_is_active (now : Z) (st : St.t) (q s : jsstring) :
  trim (St.newTodo st) ≠ [] →
  ∃ todo,
    St.todos (fst (addTodo now st)) = St.todos st ++ [todo]
    ∧ (todo ∉ view toLowerCase (St.todos (fst (addTodo now st))) (js "completed") q s)
    ∧ (keepBySearch toLowerCase q todo = true →
       todo ∈ view toLowerCase (St.todos (fst (addTodo now st))) (js "active") q s
       ∧ todo ∈ view toLowerCase (St.todos (fst (addTodo now st))) (js "all") q s)
    ∧ todo ∈ view toLowerCase (St.todos (fst (addTodo now st))) (js "active")
               (St.newTodo st) s.
Proof.
  intros Hne. eexists. rewrite addTodo_accepts by done. split; [done|].
  set (todo := Todo.mk _ _ _ _ _ _ _ _).
  assert (todo ∈ St.todos st ++ [todo]) as Hin
    by (apply elem_of_app; right; by apply list_elem_of_singleton).
  split; [|split].
  - by intros (_ & Hf & _)%elem_of_view.
  - intros Hq. split; apply elem_of_view; done.
  - apply elem_of_view. split; [done|]. split; [done|].
    unfold keepBySearch. apply orb_true_iff. left. apply includes_spec.
    exists [], []. by rewrite app_nil_r.
Qed.
End ViewAfter.

Lemma toggle_moves_across_witness :
  flip (Todo.mk (js "4") (js "a") false medium (js "personal") None (Some (js "")) (Some []))
  ∈ view asciiLower
      (St.todos (fst (toggleTodo (js "4") (run [SetNewTodo (js "a"); Submit 4]))))
      (js "completed") (js "a") (js "date")
  ∧ Todo.completed
      (flip (Todo.mk (js "4") (js "a") false medium (js "personal") None (Some (js ""))
               (Some []))) = true.
Proof.
  apply (proj1 (toggle_moves_across asciiLower (run [SetNewTodo (js "a"); Submit 4])
                  (js "a") (js "date")
                  (Todo.mk (js "4") (js "a") false medium (js "personal") None
                     (Some (js "")) (Some [])))).
  vm_compute. apply elem_of_cons. by left.
Defined.

Lemma created_task_is_active_witness :
  ∃ todo,
    St.todos (fst (addTodo 5 (run [SetNewTodo (js "a")])))
      = St.todos (run [SetNewTodo (js "a")]) ++ [todo]
    ∧ (todo ∉ view asciiLower (St.todos (fst (addTodo 5 (run [SetNewTodo (js "a")]))))
                (js "completed") (js "") (js "date"))
    ∧ (keepBySearch asciiLower (js "") todo = true →
       todo ∈ view asciiLower (St.todos (fst (addTodo 5 (run [SetNewTodo (js "a")]))))
                (js "active") (js "") (js "date")
       ∧ todo ∈ view asciiLower (St.todos (fst (addTodo 5 (run [SetNewTodo (js "a")]))))
                  (js "all") (js "") (js "date"))
    ∧ todo ∈ view asciiLower (St.todos (fst (addTodo 5 (run [SetNewTodo (js "a")]))))
               (js "active") (St.newTodo (run [SetNewTodo (js "a")])) (js "date").
Proof.
  apply (created_task_is_active asciiLower 5 (run [SetNewTodo (js "a")])).
  vm_compute. discriminate.
Defined.
